(** * The streaming index of app.py

    A shallow embedding of the ingestion and query code of [app.py]: the
    [StreamingIndex] class ([store_event], [query_events],
    [aggregate_metrics]), the Kafka loop [consume_stream] and the snapshot
    handler [websocket_query], together with the two stores they drive.

    The program is a handful of calls into three external engines.  Each
    engine is modelled by the part of its contract the program uses:
    - RocksDB: an ordered byte-string map with [put], [get] and a full scan
      in key order;
    - DuckDB: one table, [sensor_data], with the schema the program
      declares (a [UUID PRIMARY KEY] and four nullable columns), a
      parameterised [INSERT] and the grouped [AVG] query;
    - the JSON codec: [json.dumps] followed by [json.loads] gives back the
      value, so a stored document is represented by the value it encodes.

    Python exceptions are results: every operation runs in a small state and
    error monad over the two stores, and a raised exception leaves the
    writes made before it in place, as in Python. *)

From Stdlib Require Import List String Ascii ZArith Lia Bool Floats.
From Stdlib Require Import Sorted Permutation.
Import ListNotations.

Open Scope string_scope.
Open Scope list_scope.

#[local] Set Warnings "-register-all".

(** ** Python values *)

(** What [json.loads] can return: [None], booleans, integers, floats,
    strings, lists, and dictionaries with string keys.  A Python [str] is
    represented by its UTF-8 bytes; comparing such byte strings bytewise is
    comparing the strings code point by code point, which is what Python's
    [<] and [>=] on [str] do. *)
Inductive json : Type :=
| JNull
| JBool (b : bool)
| JInt (z : Z)
| JFloat (f : float)
| JStr (s : string)
| JArr (items : list json)
| JObj (fields : list (string * json)).

(** Exceptions the program can meet. [ValueError] stands for its two
    subclasses raised by the decoder, [UnicodeDecodeError] and
    [json.JSONDecodeError].  The last two are DuckDB's:
    [ConversionException] for a parameter the engine cannot bring to its
    column's type, [ConstraintException] for a violated primary key. *)
Inductive exn : Type :=
| AttributeError
| KeyError
| TypeError
| ValueError
| ConversionException
| ConstraintException.

Inductive result (A : Type) : Type :=
| Ok (a : A)
| Raise (e : exn).
Arguments Ok {A} a.
Arguments Raise {A} e.

(** Lookup in a dictionary: the first binding of the key. *)
Fixpoint lookup (k : string) (fields : list (string * json)) : option json :=
  match fields with
  | [] => None
  | (k', v) :: rest => if String.eqb k k' then Some v else lookup k rest
  end.

(** [value.get(k, default)]: only a dictionary has the method. *)
Definition py_get (value : json) (k : string) (default : json) : result json :=
  match value with
  | JObj fields =>
      match lookup k fields with
      | Some v => Ok v
      | None => Ok default
      end
  | _ => Raise AttributeError
  end.

(** [record[k]]: a missing key raises [KeyError]; a list, a string or a
    number indexed by a string raises [TypeError]. *)
Definition py_getitem (record : json) (k : string) : result json :=
  match record with
  | JObj fields =>
      match lookup k fields with
      | Some v => Ok v
      | None => Raise KeyError
      end
  | _ => Raise TypeError
  end.

(** [x >= threshold] where [threshold] is a [str]: defined between two
    strings only, anything else against a string raises [TypeError]. *)
Definition py_ge_str (x : json) (threshold : string) : result bool :=
  match x with
  | JStr s => Ok (String.leb threshold s)
  | _ => Raise TypeError
  end.

(** ** Documents

    A byte string handed to [json.loads(x.decode())]: either the UTF-8
    JSON text of a value, or bytes that are not one. *)
Inductive document : Type :=
| JsonText (v : json)
| Malformed (raw : string).

(** [json.dumps(v).encode()] *)
Definition json_dumps (v : json) : document := JsonText v.

(** [json.loads(x.decode())] *)
Definition json_loads (x : document) : result json :=
  match x with
  | JsonText v => Ok v
  | Malformed _ => Raise ValueError
  end.

(** [key.encode()]: strings already are their UTF-8 bytes. *)
Definition encode (key : string) : string := key.

(** ** RocksDB: the point index store

    The database is the list of its entries in key order (RocksDB's
    default bytewise comparator), which is the order its iterator yields
    them in. *)
Definition rocksdb : Type := list (string * document).

Fixpoint put (k : string) (v : document) (d : rocksdb) : rocksdb :=
  match d with
  | [] => [(k, v)]
  | (k', v') :: rest =>
      match String.compare k k' with
      | Lt => (k, v) :: d
      | Eq => (k, v) :: rest
      | Gt => (k', v') :: put k v rest
      end
  end.

Fixpoint get (k : string) (d : rocksdb) : option document :=
  match d with
  | [] => None
  | (k', v') :: rest => if String.eqb k k' then Some v' else get k rest
  end.

Definition iterator (d : rocksdb) : list (string * document) := d.

Definition keys (d : rocksdb) : list string := map fst d.

Definition key_lt (a b : string * document) : Prop :=
  String.compare (fst a) (fst b) = Lt.

(** The store invariant: entries strictly increasing by key. *)
Definition ordered (d : rocksdb) : Prop := Sorted key_lt d.

(** ** DuckDB: the analytical store

    [CREATE TABLE sensor_data (sensor_id UUID PRIMARY KEY, temperature FLOAT,
    humidity FLOAT, pressure FLOAT, recorded_at TIMESTAMP)]. *)

(** A [UUID] is its 128-bit value. *)
Definition uuid : Type := Z.

(** A [TIMESTAMP] by its calendar fields. *)
Record timestamp : Type := mkTimestamp {
  year : Z; month : Z; day : Z;
  hour : Z; minute : Z; second : Z; micros : Z
}.

(** [date_trunc('minute', t)] *)
Definition date_trunc_minute (t : timestamp) : timestamp :=
  mkTimestamp (year t) (month t) (day t) (hour t) (minute t) 0 0.

Definition timestamp_eqb (a b : timestamp) : bool :=
  (year a =? year b)%Z && (month a =? month b)%Z && (day a =? day b)%Z &&
  (hour a =? hour b)%Z && (minute a =? minute b)%Z &&
  (second a =? second b)%Z && (micros a =? micros b)%Z.

(** One raw row; [None] is SQL's [NULL]. *)
Record row : Type := mkRow {
  sensor_id : uuid;
  temperature : option float;
  humidity : option float;
  pressure : option float;
  recorded_at : option timestamp
}.

Definition table : Type := list row.

(** What the engine does to a Python parameter bound to a column of each
    type: [None] when the value cannot be converted (DuckDB raises a
    conversion error), [Some None] for [NULL], [Some (Some x)] for a
    value.  The program fixes the schema and the statements; how DuckDB
    reads a text as a UUID, a number as a 32-bit float or a text as a
    timestamp is the engine's, so the model takes it as an interface. *)
Class Conversions : Type := {
  to_uuid : json -> option (option uuid);
  to_float : json -> option (option float);
  to_timestamp : json -> option (option timestamp)
}.

(** One row of the grouped query, named by the query's columns. *)
Record aggregate_row : Type := mkAggregate {
  agg_sensor_id : uuid;
  avg_temp : option float;
  avg_humidity : option float;
  avg_pressure : option float;
  time_bucket : option timestamp
}.

(** The grouping key of a raw row: [(sensor_id, date_trunc('minute',
    recorded_at))]; [GROUP BY] puts the [NULL]s of a column in one group. *)
Definition group : Type := (uuid * option timestamp)%type.

Definition group_of (r : row) : group :=
  (sensor_id r, option_map date_trunc_minute (recorded_at r)).

Definition bucket_eqb (a b : option timestamp) : bool :=
  match a, b with
  | Some x, Some y => timestamp_eqb x y
  | None, None => true
  | _, _ => false
  end.

Definition group_eqb (a b : group) : bool :=
  (fst a =? fst b)%Z && bucket_eqb (snd a) (snd b).

(** The distinct keys of a list, each at its first occurrence. *)
Fixpoint distinct (ks : list group) : list group :=
  match ks with
  | [] => []
  | k :: rest => k :: filter (fun k' => negb (group_eqb k k')) (distinct rest)
  end.

(** The rows of a group. *)
Definition members (g : group) (t : table) : list row :=
  filter (fun r => group_eqb (group_of r) g) t.

(** The values of a column that are not [NULL]. *)
Fixpoint non_null (xs : list (option float)) : list float :=
  match xs with
  | [] => []
  | Some x :: rest => x :: non_null rest
  | None :: rest => non_null rest
  end.

Definition count_float (n : nat) : float :=
  PrimFloat.of_uint63 (Uint63.of_Z (Z.of_nat n)).

(** [AVG]: the sum of the values that are not [NULL] over their number, in
    double precision; [NULL] when there is none. *)
Definition AVG (xs : list (option float)) : option float :=
  match non_null xs with
  | [] => None
  | vs => Some (PrimFloat.div (fold_left PrimFloat.add vs 0%float)
                              (count_float (List.length vs)))
  end.

(** [SELECT sensor_id, AVG(temperature) AS avg_temp, AVG(humidity) AS
    avg_humidity, AVG(pressure) AS avg_pressure, date_trunc('minute',
    recorded_at) AS time_bucket FROM sensor_data GROUP BY sensor_id,
    time_bucket].  The engine leaves the order of the groups open; the
    model lists them by first occurrence, and nothing below depends on
    that order. *)
Definition select_avg (t : table) : list aggregate_row :=
  map (fun g =>
         let rs := members g t in
         mkAggregate (fst g)
                     (AVG (map temperature rs))
                     (AVG (map humidity rs))
                     (AVG (map pressure rs))
                     (snd g))
      (distinct (map group_of t)).

Section Engine.

Context {conv : Conversions}.

(** [INSERT INTO sensor_data VALUES (?, ?, ?, ?, ?)]: the five parameters
    are converted to the column types, then the primary key is checked
    (not [NULL], not already in the table), then the row is appended. *)
Definition insert (params : json * json * json * json * json) (t : table)
  : result table :=
  let '(p1, p2, p3, p4, p5) := params in
  match to_uuid p1, to_float p2, to_float p3, to_float p4, to_timestamp p5 with
  | Some id, Some te, Some hu, Some pr, Some at_ =>
      match id with
      | None => Raise ConstraintException
      | Some i =>
          if existsb (fun r => (sensor_id r =? i)%Z) t
          then Raise ConstraintException
          else Ok (t ++ [mkRow i te hu pr at_])
      end
  | _, _, _, _, _ => Raise ConversionException
  end.

End Engine.

(** ** The state and error monad *)

(** The two stores the module creates at import time: [db], the RocksDB
    handle, and the [sensor_data] table behind [duckdb_conn]. *)
Record world : Type := mkWorld {
  db : rocksdb;
  sensor_data : table
}.

(** A computation over a state [S]: it returns or raises, and in both cases
    leaves a state behind. *)
Definition M (S A : Type) : Type := S -> result A * S.

Definition ret {S A : Type} (a : A) : M S A := fun s => (Ok a, s).

Definition bind {S A B : Type} (c : M S A) (k : A -> M S B) : M S B :=
  fun s =>
    match c s with
    | (Ok a, s') => k a s'
    | (Raise e, s') => (Raise e, s')
    end.

(** A pure step that may raise. *)
Definition lift {S A : Type} (r : result A) : M S A := fun s => (r, s).

Declare Scope py_scope.
Delimit Scope py_scope with py.
Notation "x <- c ;; k" := (bind c (fun x => k))
  (at level 61, c at next level, right associativity) : py_scope.
Notation "c ;; k" := (bind c (fun _ => k))
  (at level 61, right associativity) : py_scope.
Open Scope py_scope.

(** [db.put(k, v)] *)
Definition db_put (k : string) (v : document) : M world unit :=
  fun w => (Ok tt, mkWorld (put k v (db w)) (sensor_data w)).

(** [db.iterator()]: the entries as they are when the scan starts. *)
Definition db_iterator : M world (list (string * document)) :=
  fun w => (Ok (iterator (db w)), w).

(** [duckdb_conn.execute(<the grouped query>).fetchall()] *)
Definition execute_select_avg : M world (list aggregate_row) :=
  fun w => (Ok (select_avg (sensor_data w)), w).

(** ** [str(message.key)]

    The consumer has no key deserializer, so a key is [bytes] or [None],
    and [str] of it is its [repr]. *)
Definition apostrophe : ascii := ascii_of_nat 39.
Definition double_quote : ascii := ascii_of_nat 34.
Definition backslash : ascii := ascii_of_nat 92.

Fixpoint contains (c : ascii) (s : string) : bool :=
  match s with
  | EmptyString => false
  | String c' rest => Ascii.eqb c c' || contains c rest
  end.

Definition hex_digit (n : nat) : ascii :=
  match String.get n "0123456789abcdef" with
  | Some c => c
  | None => "0"%char
  end.

Definition repr_byte (quote c : ascii) : string :=
  let n := nat_of_ascii c in
  if Ascii.eqb c quote || Ascii.eqb c backslash
  then String backslash (String c "")
  else if (n =? 9)%nat then "\t"
  else if (n =? 10)%nat then "\n"
  else if (n =? 13)%nat then "\r"
  else if (n <? 32)%nat || (127 <=? n)%nat
  then "\x" ++ String (hex_digit (n / 16)) (String (hex_digit (n mod 16)) "")
  else String c "".

Fixpoint repr_bytes (quote : ascii) (b : string) : string :=
  match b with
  | EmptyString => String quote ""
  | String c rest => repr_byte quote c ++ repr_bytes quote rest
  end.

Definition bytes_repr (b : string) : string :=
  let quote :=
    if contains apostrophe b && negb (contains double_quote b)
    then double_quote else apostrophe in
  "b" ++ String quote (repr_bytes quote b).

Definition py_str (key : option string) : string :=
  match key with
  | None => "None"
  | Some b => bytes_repr b
  end.

(** ** The program *)

Section Program.

Context {conv : Conversions}.

(** [duckdb_conn.execute("INSERT INTO sensor_data VALUES (?, ?, ?, ?, ?)",
    params)]: a failed statement leaves the table as it was. *)
Definition execute_insert (params : json * json * json * json * json)
  : M world unit :=
  fun w =>
    match insert params (sensor_data w) with
    | Ok t => (Ok tt, mkWorld (db w) t)
    | Raise e => (Raise e, w)
    end.

(** [StreamingIndex.store_event] *)
Definition store_event (key : string) (value : json) : M world unit :=
  ts <- lift (py_get value "timestamp" (JStr "unknown")) ;;
  let indexed_value := JObj [("data", value); ("timestamp", ts)] in
  db_put (encode key) (json_dumps indexed_value) ;;
  te <- lift (py_get value "temperature" JNull) ;;
  hu <- lift (py_get value "humidity" JNull) ;;
  pr <- lift (py_get value "pressure" JNull) ;;
  at_ <- lift (py_get value "timestamp" JNull) ;;
  execute_insert (JStr key, te, hu, pr, at_).

(** The body of the [for key, value in it] loop of [query_events], with
    [results] the list built so far. *)
Fixpoint query_events_loop (it : list (string * document))
    (timestamp_threshold : string) (results : list json)
  : M world (list json) :=
  match it with
  | [] => ret results
  | (_, value) :: it' =>
      record <- lift (json_loads value) ;;
      ts <- lift (py_getitem record "timestamp") ;;
      keep <- lift (py_ge_str ts timestamp_threshold) ;;
      query_events_loop it' timestamp_threshold
        (if keep then results ++ [record] else results)
  end.

(** [StreamingIndex.query_events] *)
Definition query_events (timestamp_threshold : string) : M world (list json) :=
  it <- db_iterator ;;
  query_events_loop it timestamp_threshold [].

(** [StreamingIndex.aggregate_metrics] *)
Definition aggregate_metrics : M world (list aggregate_row) :=
  execute_select_avg.

(** The two GET handlers. *)
Definition query_data (timestamp_threshold : string) : M world (list json) :=
  query_events timestamp_threshold.

Definition get_aggregated_metrics : M world (list aggregate_row) :=
  aggregate_metrics.

(** *** The Kafka loop *)

(** A record as fetched from the topic, and the message the consumer
    yields for it. *)
Record consumer_record : Type := mkRecord {
  record_key : option string;
  record_value : document
}.

Record message : Type := mkMessage {
  key : option string;
  value : json
}.

(** [value_deserializer=lambda x: json.loads(x.decode('utf-8'))] *)
Definition value_deserializer (x : document) : result json := json_loads x.

(** One step of the consumer's iterator: the deserializer runs inside it,
    so what it raises is raised by the [for] statement itself. *)
Definition next_message (r : consumer_record) : result message :=
  match value_deserializer (record_value r) with
  | Ok v => Ok (mkMessage (record_key r) v)
  | Raise e => Raise e
  end.

(** [consume_stream], on the records the topic has delivered so far (at
    the end of the list the real loop waits for the next one); the loop
    has no [try], so the first exception ends it. *)
Fixpoint consume_stream (consumer : list consumer_record) : M world unit :=
  match consumer with
  | [] => ret tt
  | r :: rest =>
      message <- lift (next_message r) ;;
      store_event (py_str (key message)) (value message) ;;
      consume_stream rest
  end.

(** *** The snapshot handler *)

(** What the handler does to its connection, oldest first. *)
Inductive frame : Type :=
| Accept
| SendJson (v : json).

Definition websocket : Type := list frame.

Definition session : Type := (world * websocket)%type.

Definition on_world {A : Type} (c : M world A) : M session A :=
  fun s =>
    match c (fst s) with
    | (r, w) => (r, (w, snd s))
    end.

Definition ws_accept : M session unit :=
  fun s => (Ok tt, (fst s, snd s ++ [Accept])).

Definition ws_send_json (v : json) : M session unit :=
  fun s => (Ok tt, (fst s, snd s ++ [SendJson v])).

Fixpoint websocket_loop (it : list (string * document)) : M session unit :=
  match it with
  | [] => ret tt
  | (_, value) :: it' =>
      record <- lift (json_loads value) ;;
      ws_send_json record ;;
      websocket_loop it'
  end.

(** [websocket_query]: when the loop is over the handler returns, which
    is what ends the connection; the code sends no close frame of its
    own. *)
Definition websocket_query : M session unit :=
  ws_accept ;;
  it <- on_world db_iterator ;;
  websocket_loop it.

End Program.

(** ** A sample engine

    Conversions to evaluate the model with, covering the values the
    examples use: a UUID in its canonical hyphenated hexadecimal form,
    integers and floats rounded to single precision, a timestamp written
    [YYYY-MM-DD hh:mm:ss] (or with a [T] between date and time), and
    [None] for [NULL] in every column.  They are narrower than the
    engine, which reads more layouts, and reject the rest; nothing proved
    for every [Conversions] depends on them. *)

Definition hex_value (c : ascii) : option Z :=
  let n := Z.of_nat (nat_of_ascii c) in
  if (48 <=? n)%Z && (n <=? 57)%Z then Some (n - 48)%Z
  else if (97 <=? n)%Z && (n <=? 102)%Z then Some (n - 87)%Z
  else if (65 <=? n)%Z && (n <=? 70)%Z then Some (n - 55)%Z
  else None.

Definition is_hyphen_position (pos : nat) : bool :=
  (pos =? 8)%nat || (pos =? 13)%nat || (pos =? 18)%nat || (pos =? 23)%nat.

Fixpoint parse_uuid_from (pos : nat) (acc : Z) (s : string) : option Z :=
  match s with
  | EmptyString => if (pos =? 36)%nat then Some acc else None
  | String c rest =>
      if is_hyphen_position pos
      then if Ascii.eqb c "-"%char then parse_uuid_from (S pos) acc rest else None
      else match hex_value c with
           | Some d => parse_uuid_from (S pos) (16 * acc + d)%Z rest
           | None => None
           end
  end.

Definition parse_uuid (s : string) : option Z := parse_uuid_from 0 0%Z s.

Definition digit_value (c : ascii) : option Z :=
  let n := Z.of_nat (nat_of_ascii c) in
  if (48 <=? n)%Z && (n <=? 57)%Z then Some (n - 48)%Z else None.

(** [n] decimal digits at the head of [s], and what follows them. *)
Fixpoint take_digits (n : nat) (acc : Z) (s : string) : option (Z * string) :=
  match n with
  | O => Some (acc, s)
  | S n' =>
      match s with
      | String c rest =>
          match digit_value c with
          | Some d => take_digits n' (10 * acc + d)%Z rest
          | None => None
          end
      | EmptyString => None
      end
  end.

Definition take_char (ok : ascii -> bool) (s : string) : option string :=
  match s with
  | String c rest => if ok c then Some rest else None
  | EmptyString => None
  end.

Definition is_leap (y : Z) : bool :=
  ((y mod 4 =? 0)%Z && negb (y mod 100 =? 0)%Z) || (y mod 400 =? 0)%Z.

Definition days_in_month (y m : Z) : Z :=
  if (m =? 2)%Z then (if is_leap y then 29 else 28)%Z
  else if (m =? 4)%Z || (m =? 6)%Z || (m =? 9)%Z || (m =? 11)%Z then 30%Z
  else 31%Z.

Definition bind_option {A B : Type} (o : option A) (k : A -> option B) : option B :=
  match o with
  | Some a => k a
  | None => None
  end.

Definition parse_timestamp (s : string) : option timestamp :=
  bind_option (take_digits 4 0%Z s) (fun '(y, s) =>
  bind_option (take_char (Ascii.eqb "-"%char) s) (fun s =>
  bind_option (take_digits 2 0%Z s) (fun '(mo, s) =>
  bind_option (take_char (Ascii.eqb "-"%char) s) (fun s =>
  bind_option (take_digits 2 0%Z s) (fun '(d, s) =>
  bind_option (take_char (fun c => Ascii.eqb c " "%char || Ascii.eqb c "T"%char) s) (fun s =>
  bind_option (take_digits 2 0%Z s) (fun '(h, s) =>
  bind_option (take_char (Ascii.eqb ":"%char) s) (fun s =>
  bind_option (take_digits 2 0%Z s) (fun '(mi, s) =>
  bind_option (take_char (Ascii.eqb ":"%char) s) (fun s =>
  bind_option (take_digits 2 0%Z s) (fun '(se, s) =>
  match s with
  | EmptyString =>
      if (1 <=? mo)%Z && (mo <=? 12)%Z && (1 <=? d)%Z && (d <=? days_in_month y mo)%Z
         && (h <=? 23)%Z && (mi <=? 59)%Z && (se <=? 59)%Z
      then Some (mkTimestamp y mo d h mi se 0)
      else None
  | String _ _ => None
  end))))))))))).

(** Rounding [m * 2^e] to the nearest single-precision value; [None]
    when it is too large for one. *)
Definition single (m e : Z) (negative_zero : bool) : option float :=
  match binary_normalize 24 128 m e negative_zero with
  | S754_infinity _ => None
  | y => Some (SF2Prim y)
  end.

Definition round_single (x : spec_float) : option float :=
  match x with
  | S754_finite s m e => single (if s then Z.neg m else Z.pos m) e s
  | y => Some (SF2Prim y)
  end.

Definition sample_to_uuid (v : json) : option (option uuid) :=
  match v with
  | JNull => Some None
  | JStr s => option_map Some (parse_uuid s)
  | _ => None
  end.

Definition sample_to_float (v : json) : option (option float) :=
  match v with
  | JNull => Some None
  | JInt z => option_map Some (single z 0 false)
  | JFloat f => option_map Some (round_single (Prim2SF f))
  | _ => None
  end.

Definition sample_to_timestamp (v : json) : option (option timestamp) :=
  match v with
  | JNull => Some None
  | JStr s => option_map Some (parse_timestamp s)
  | _ => None
  end.

Definition sample_engine : Conversions :=
  {| to_uuid := sample_to_uuid;
     to_float := sample_to_float;
     to_timestamp := sample_to_timestamp |}.

(** The module's state at start-up when the RocksDB directory is new. *)
Definition fresh : world := mkWorld [] [].

(** ** Definitions the statements use *)

(** The value [store_event] reads as an event's timestamp, and the record
    it builds. *)
Definition timestamp_field (fields : list (string * json)) : json :=
  match lookup "timestamp" fields with
  | Some v => v
  | None => JStr "unknown"
  end.

Definition indexed (fields : list (string * json)) : json :=
  JObj [("data", JObj fields); ("timestamp", timestamp_field fields)].

(** The record as the data model words it, from a [recordedAt] field. *)
Definition indexed_from_recordedAt (fields : list (string * json)) : json :=
  JObj [("data", JObj fields);
        ("timestamp", match lookup "recordedAt" fields with
                      | Some v => v
                      | None => JStr "unknown"
                      end)].

(** The timestamp of a stored record, when it is a string. *)
Definition timestamp_of (record : json) : option string :=
  match record with
  | JObj fields =>
      match lookup "timestamp" fields with
      | Some (JStr s) => Some s
      | _ => None
      end
  | _ => None
  end.

(** [timestamp >= t], on strings. *)
Definition at_or_after (t : string) (record : json) : bool :=
  match timestamp_of record with
  | Some s => String.leb t s
  | None => false
  end.

(** A stored document the scan of [query_events] can compare: a record
    whose timestamp is a string. *)
Definition comparable (entry : string * document) : bool :=
  match snd entry with
  | JsonText record =>
      match timestamp_of record with
      | Some _ => true
      | None => false
      end
  | Malformed _ => false
  end.

(** An event of the data model: its timestamp, when it has one, is a
    string. *)
Definition typed_event (fields : list (string * json)) : bool :=
  match lookup "timestamp" fields with
  | Some (JStr _) => true
  | Some _ => false
  | None => true
  end.

(** The records a store holds, in scan order. *)
Fixpoint records (d : rocksdb) : list json :=
  match d with
  | [] => []
  | (_, JsonText record) :: rest => record :: records rest
  | (_, Malformed _) :: rest => records rest
  end.

Definition starts_with_digit (t : string) : bool :=
  match t with
  | String c _ => (48 <=? nat_of_ascii c)%nat && (nat_of_ascii c <=? 57)%nat
  | EmptyString => false
  end.

(** [value.get(name)], and the parameters [store_event] binds to the
    [INSERT] statement. *)
Definition field (name : string) (fields : list (string * json)) : json :=
  match lookup name fields with
  | Some v => v
  | None => JNull
  end.

Definition insert_params (key : string) (fields : list (string * json))
  : json * json * json * json * json :=
  (JStr key, field "temperature" fields, field "humidity" fields,
   field "pressure" fields, field "timestamp" fields).

(** The entry a call of [store_event] writes, and the store after the
    writes of a sequence of calls. *)
Definition entry_of (c : string * list (string * json)) : string * document :=
  (encode (fst c), json_dumps (indexed (snd c))).

Definition write_all (cs : list (string * list (string * json))) (d : rocksdb)
  : rocksdb :=
  fold_left (fun d c => put (fst (entry_of c)) (snd (entry_of c)) d) cs d.

(** The rows of a table that carry a given identifier. *)
Definition rows_of (i : uuid) (t : table) : list row :=
  filter (fun r => (sensor_id r =? i)%Z) t.

Section Calls.

Context {conv : Conversions}.

(** The world after a call of [store_event], whatever the call's outcome,
    and after a sequence of calls made one after the other. *)
Definition after_call (w : world) (c : string * list (string * json)) : world :=
  snd (store_event (fst c) (JObj (snd c)) w).

Definition after_calls (cs : list (string * list (string * json))) (w : world)
  : world :=
  fold_left after_call cs w.

End Calls.

(** An output row [a] is the summary of the group of the raw row [r]. *)
Definition summarises (a : aggregate_row) (r : row) (t : table) : Prop :=
  agg_sensor_id a = sensor_id r /\
  time_bucket a = option_map date_trunc_minute (recorded_at r) /\
  avg_temp a = AVG (map temperature (members (group_of r) t)) /\
  avg_humidity a = AVG (map humidity (members (group_of r) t)) /\
  avg_pressure a = AVG (map pressure (members (group_of r) t)).

(** ** Sample data *)

Definition sensor_s : string := "123e4567-e89b-12d3-a456-426614174000".

Definition sensor_s_id : uuid := 24249434048109030647017182301789831168%Z.

Definition reading_20 : list (string * json) :=
  [("temperature", JInt 20); ("timestamp", JStr "2024-01-01 10:00:05")].

Definition reading_22 : list (string * json) :=
  [("temperature", JInt 22); ("timestamp", JStr "2024-01-01 10:00:40")].

(** The sample engine's world after the first reading, and after both. *)
Definition after_first : world :=
  @after_call sample_engine fresh (sensor_s, reading_20).

Definition after_both : world :=
  @after_call sample_engine after_first (sensor_s, reading_22).

(** ** Definitions for the further properties *)

(** A value with a [get] method: a dictionary. *)
Definition is_dict (value : json) : bool :=
  match value with
  | JObj _ => true
  | _ => false
  end.

(** An entry whose bytes are a JSON text. *)
Definition is_json_text (entry : string * document) : bool :=
  match snd entry with
  | JsonText _ => true
  | Malformed _ => false
  end.

(** Reading a [repr] back: the inverse of [py_str], to tell that two keys
    never share one. *)
Definition hex_of (c : ascii) : option nat :=
  let n := nat_of_ascii c in
  if (48 <=? n)%nat && (n <=? 57)%nat then Some (n - 48)%nat
  else if (97 <=? n)%nat && (n <=? 102)%nat then Some (n - 87)%nat
  else None.

Fixpoint unrepr_body (quote : ascii) (s : string) : option string :=
  match s with
  | EmptyString => None
  | String c rest =>
      if Ascii.eqb c quote
      then match rest with
           | EmptyString => Some EmptyString
           | String _ _ => None
           end
      else if Ascii.eqb c backslash
      then match rest with
           | String e rest' =>
               if Ascii.eqb e quote || Ascii.eqb e backslash
               then option_map (String e) (unrepr_body quote rest')
               else if Ascii.eqb e "t"%char
               then option_map (String (ascii_of_nat 9)) (unrepr_body quote rest')
               else if Ascii.eqb e "n"%char
               then option_map (String (ascii_of_nat 10)) (unrepr_body quote rest')
               else if Ascii.eqb e "r"%char
               then option_map (String (ascii_of_nat 13)) (unrepr_body quote rest')
               else if Ascii.eqb e "x"%char
               then match rest' with
                    | String h (String l rest'') =>
                        match hex_of h, hex_of l with
                        | Some a, Some b =>
                            option_map (String (ascii_of_nat (16 * a + b)))
                                       (unrepr_body quote rest'')
                        | _, _ => None
                        end
                    | _ => None
                    end
               else None
           | EmptyString => None
           end
      else option_map (String c) (unrepr_body quote rest)
  end.

Definition unrepr (s : string) : option (option string) :=
  if String.eqb s "None" then Some None
  else match s with
       | String b (String quote body) =>
           if Ascii.eqb b "b"%char
              && (Ascii.eqb quote apostrophe || Ascii.eqb quote double_quote)
           then option_map Some (unrepr_body quote body)
           else None
       | _ => None
       end.

(** Every character is printable ASCII (32 to 126). *)
Fixpoint printable (s : string) : bool :=
  match s with
  | EmptyString => true
  | String c rest =>
      (32 <=? nat_of_ascii c)%nat && (nat_of_ascii c <=? 126)%nat && printable rest
  end.

(** The two sample readings as the consumer fetches them, keyed by the
    sensor. *)
Definition record_20 : consumer_record :=
  mkRecord (Some sensor_s) (JsonText (JObj reading_20)).

Definition record_22 : consumer_record :=
  mkRecord (Some sensor_s) (JsonText (JObj reading_22)).

(** The rows of three readings of [sensor_s], 20 and 22 in the minute
    10:00 and 30 in the minute 10:01: the table the grouped query is
    written for, which the primary key keeps [store_event] from
    building. *)
Definition readings_of_one_sensor : table :=
  [mkRow sensor_s_id (Some 20%float) None None (Some (mkTimestamp 2024 1 1 10 0 5 0));
   mkRow sensor_s_id (Some 22%float) None None (Some (mkTimestamp 2024 1 1 10 0 40 0));
   mkRow sensor_s_id (Some 30%float) None None (Some (mkTimestamp 2024 1 1 10 1 10 0))].

(** * Properties *)

(** ** The order on keys *)

Lemma ascii_compare_refl (c : ascii) : Ascii.compare c c = Eq.
Proof. unfold Ascii.compare. apply N.compare_refl. Qed.

Lemma compare_refl (s : string) : String.compare s s = Eq.
Proof.
  induction s as [|c s IH]; simpl; [reflexivity|].
  now rewrite ascii_compare_refl.
Qed.

Lemma compare_eq (a b : string) : String.compare a b = Eq <-> a = b.
Proof.
  split; [apply String.compare_eq_iff | intros ->; apply compare_refl].
Qed.

Lemma compare_gt_lt (a b : string) :
  String.compare a b = Gt -> String.compare b a = Lt.
Proof.
  intros H. rewrite String.compare_antisym, H. reflexivity.
Qed.

Lemma compare_lt_gt (a b : string) :
  String.compare a b = Lt -> String.compare b a = Gt.
Proof.
  intros H. rewrite String.compare_antisym, H. reflexivity.
Qed.

Lemma compare_lt_trans (a b c : string) :
  String.compare a b = Lt -> String.compare b c = Lt -> String.compare a c = Lt.
Proof.
  revert b c.
  induction a as [|x a IH]; intros [|y b] [|z c]; simpl; try discriminate; auto.
  unfold Ascii.compare.
  destruct (N.compare_spec (N_of_ascii x) (N_of_ascii y)) as [exy|lxy|gxy];
    try discriminate;
    destruct (N.compare_spec (N_of_ascii y) (N_of_ascii z)) as [eyz|lyz|gyz];
    try discriminate; intros Hab Hbc.
  - rewrite exy, eyz, N.compare_refl. eauto.
  - rewrite exy. now apply N.compare_lt_iff in lyz as ->.
  - rewrite <- eyz. now apply N.compare_lt_iff in lxy as ->.
  - assert (N_of_ascii x < N_of_ascii z)%N as H by lia.
    now apply N.compare_lt_iff in H as ->.
Qed.

Lemma eqb_compare (a b : string) :
  String.eqb a b = match String.compare a b with Eq => true | _ => false end.
Proof.
  destruct (String.eqb_spec a b) as [->|ne].
  - now rewrite compare_refl.
  - destruct (String.compare a b) eqn:E; try reflexivity.
    now apply compare_eq in E.
Qed.

(** ** The point index store *)

Lemma get_put_same (k : string) (v : document) (d : rocksdb) :
  get k (put k v d) = Some v.
Proof.
  induction d as [|[k' v'] d IH]; simpl.
  - now rewrite String.eqb_refl.
  - destruct (String.compare k k') eqn:E; simpl.
    + now rewrite String.eqb_refl.
    + now rewrite String.eqb_refl.
    + rewrite eqb_compare, E. exact IH.
Qed.

Lemma get_put_other (k k0 : string) (v : document) (d : rocksdb) :
  k0 <> k -> get k0 (put k v d) = get k0 d.
Proof.
  intros ne.
  induction d as [|[k' v'] d IH]; simpl.
  - apply String.eqb_neq in ne. now rewrite ne.
  - destruct (String.compare k k') eqn:E; simpl.
    + apply compare_eq in E. subst k'.
      apply String.eqb_neq in ne. now rewrite ne.
    + apply String.eqb_neq in ne. now rewrite ne.
    + now rewrite IH.
Qed.

Lemma put_keys_incl (k : string) (v : document) (d : rocksdb) (x : string) :
  In x (keys (put k v d)) -> x = k \/ In x (keys d).
Proof.
  unfold keys.
  induction d as [|[k' v'] d IH]; simpl.
  - intros [<-|[]]. now left.
  - destruct (String.compare k k'); simpl; intros [<-|H]; auto.
    destruct (IH H); auto.
Qed.

Lemma put_hdrel (k : string) (v : document) (d : rocksdb) (a : string * document) :
  HdRel key_lt a d -> key_lt a (k, v) -> HdRel key_lt a (put k v d).
Proof.
  intros Hd Ha.
  destruct d as [|[k' v'] d]; simpl; [now constructor|].
  destruct (String.compare k k'); constructor; auto.
  now inversion Hd.
Qed.

Lemma put_ordered (k : string) (v : document) (d : rocksdb) :
  ordered d -> ordered (put k v d).
Proof.
  unfold ordered.
  induction d as [|[k' v'] d IH]; simpl; intros Hs.
  - repeat constructor.
  - inversion Hs as [|? ? Hs' Hd]; subst.
    destruct (String.compare k k') eqn:E.
    + apply compare_eq in E. subst k'.
      constructor; [assumption|].
      destruct Hd; constructor. assumption.
    + constructor; [assumption|]. constructor. exact E.
    + constructor; [auto|].
      apply put_hdrel; [assumption|]. now apply compare_gt_lt.
Qed.

Ltac flip_compare :=
  repeat match goal with
         | H : String.compare ?a ?b = Lt |- _ =>
             lazymatch goal with
             | _ : String.compare b a = Gt |- _ => fail
             | _ => pose proof (compare_lt_gt _ _ H)
             end
         | H : String.compare ?a ?b = Gt |- _ =>
             lazymatch goal with
             | _ : String.compare b a = Lt |- _ => fail
             | _ => pose proof (compare_gt_lt _ _ H)
             end
         end.

Ltac by_compare :=
  flip_compare;
  repeat (cbn [put];
          match goal with
          | H : String.compare _ _ = _ |- _ => rewrite H
          | |- _ => rewrite compare_refl
          end);
  try reflexivity.

Lemma put_comm (k1 k2 : string) (v1 v2 : document) (d : rocksdb) :
  k1 <> k2 -> put k1 v1 (put k2 v2 d) = put k2 v2 (put k1 v1 d).
Proof.
  intros ne.
  assert (String.compare k1 k2 <> Eq) as ne12
    by (intros E; now apply compare_eq in E).
  induction d as [|[k' v'] d IH]; cbn [put].
  - destruct (String.compare k1 k2) eqn:E; [congruence | by_compare ..].
  - destruct (String.compare k1 k') eqn:E1;
      destruct (String.compare k2 k') eqn:E2;
      try (apply compare_eq in E1; subst k');
      try (apply compare_eq in E2; try congruence; subst k');
      try solve [by_compare].
    + destruct (String.compare k1 k2) eqn:E; [congruence | by_compare ..].
    + assert (String.compare k1 k2 = Lt) as E
        by (eapply compare_lt_trans; [exact E1 | now apply compare_gt_lt]).
      by_compare.
    + assert (String.compare k2 k1 = Lt) as E
        by (eapply compare_lt_trans; [exact E2 | now apply compare_gt_lt]).
      by_compare.
    + by_compare. now rewrite IH.
Qed.

(** ** [store_event], step by step *)

Section StoreEvent.

Context {conv : Conversions}.

(** On a dictionary the call writes the record, then runs the [INSERT];
    what the statement raises is what the call raises, with the record
    written. *)
Lemma store_event_dict (key : string) (fields : list (string * json)) (w : world) :
  store_event key (JObj fields) w =
  match insert (insert_params key fields) (sensor_data w) with
  | Ok t => (Ok tt, mkWorld (put key (json_dumps (indexed fields)) (db w)) t)
  | Raise e =>
      (Raise e, mkWorld (put key (json_dumps (indexed fields)) (db w)) (sensor_data w))
  end.
Proof.
  unfold store_event, bind, lift, db_put, execute_insert, py_get, insert_params,
    field, indexed, timestamp_field, encode.
  cbn [db sensor_data].
  destruct (lookup "timestamp" fields), (lookup "temperature" fields),
    (lookup "humidity" fields), (lookup "pressure" fields); reflexivity.
Qed.

(** On anything else it raises before it writes. *)
Lemma store_event_not_dict (key : string) (value : json) (w : world) :
  (forall fields, value <> JObj fields) ->
  store_event key value w = (Raise AttributeError, w).
Proof.
  intros nd. destruct value; try reflexivity. now elim (nd fields).
Qed.

Lemma after_call_db (w : world) (k : string) (fields : list (string * json)) :
  db (after_call w (k, fields)) = put k (json_dumps (indexed fields)) (db w).
Proof.
  unfold after_call. cbn [fst snd]. rewrite store_event_dict.
  now destruct (insert _ _).
Qed.

End StoreEvent.

(** ** The [INSERT] statement and the primary key *)

Section Insert.

Context {conv : Conversions}.

Lemma insert_ok (p1 p2 p3 p4 p5 : json) (t t' : table) :
  insert (p1, p2, p3, p4, p5) t = Ok t' ->
  exists i te hu pr at_,
    to_uuid p1 = Some (Some i) /\
    existsb (fun r => (sensor_id r =? i)%Z) t = false /\
    t' = t ++ [mkRow i te hu pr at_].
Proof.
  unfold insert.
  destruct (to_uuid p1) as [[i|]|], (to_float p2) as [te|], (to_float p3) as [hu|],
    (to_float p4) as [pr|], (to_timestamp p5) as [at_|]; try discriminate.
  destruct (existsb _ t) eqn:E; try discriminate.
  intros [= <-]. now exists i, te, hu, pr, at_.
Qed.

Lemma insert_duplicate (p1 p2 p3 p4 p5 : json) (i : uuid) (t : table) :
  to_uuid p1 = Some (Some i) ->
  existsb (fun r => (sensor_id r =? i)%Z) t = true ->
  exists e, insert (p1, p2, p3, p4, p5) t = Raise e /\
            (e = ConstraintException \/ e = ConversionException).
Proof.
  intros Hid Hex. unfold insert. rewrite Hid.
  destruct (to_float p2), (to_float p3), (to_float p4), (to_timestamp p5);
    rewrite ?Hex; eauto.
Qed.

Lemma rows_of_absent (i : uuid) (t : table) :
  existsb (fun r => (sensor_id r =? i)%Z) t = false -> rows_of i t = [].
Proof.
  unfold rows_of.
  induction t as [|r t IH]; simpl; [reflexivity|].
  destruct (sensor_id r =? i)%Z; simpl; [discriminate | exact IH].
Qed.

End Insert.

(** ** Writes *)

Section Writes.

Context {conv : Conversions}.

(** C1. After [store_event k e1], any further calls, and [store_event k
    e2], a point lookup of [k] gives the record built from [e2], whatever
    the last call returned or raised (its [INSERT] included); the lookups
    of the other keys are what they were before that call. *)
Theorem last_write_wins (w : world) (k : string) (e1 e2 : list (string * json))
    (others : list (string * list (string * json))) :
  let w1 := after_call w (k, e1) in
  let w2 := after_calls others w1 in
  let w3 := snd (store_event k (JObj e2) w2) in
  get (encode k) (db w3) = Some (json_dumps (indexed e2)) /\
  option_map json_loads (get (encode k) (db w3)) = Some (Ok (indexed e2)) /\
  (forall k', k' <> k -> get (encode k') (db w3) = get (encode k') (db w2)).
Proof.
  intros w1 w2 w3.
  assert (db w3 = put k (json_dumps (indexed e2)) (db w2)) as ->
    by apply (after_call_db w2 k e2).
  unfold encode. rewrite get_put_same.
  split; [reflexivity|]. split; [reflexivity|].
  intros k' ne. now apply get_put_other.
Qed.

(** C4, as the code has it. The record [store_event] stores for an event
    is [{data: e, timestamp: e["timestamp"]}] when the event has a
    [timestamp] field (whatever its value) and [{data: e, timestamp:
    "unknown"}] when it has none; a [recordedAt] field plays no part in
    it. *)
Theorem stored_record_timestamp (w : world) (k : string)
    (fields : list (string * json)) (v : json) :
  get (encode k) (db (snd (store_event k (JObj fields) w))) =
    Some (json_dumps
            (JObj [("data", JObj fields);
                   ("timestamp", match lookup "timestamp" fields with
                                 | Some ts => ts
                                 | None => JStr "unknown"
                                 end)])) /\
  timestamp_field (("recordedAt", v) :: fields) = timestamp_field fields.
Proof.
  split; [|reflexivity].
  change (snd (store_event k (JObj fields) w)) with (after_call w (k, fields)).
  rewrite after_call_db. unfold encode. now rewrite get_put_same.
Qed.

(** C7. When the [INSERT] of [store_event key e] raises, the call raises
    that exception to its caller there and then; the record it wrote to
    the point index stays, and the table is as it was. *)
Theorem insert_failure_keeps_record (w : world) (key : string)
    (fields : list (string * json)) (e : exn) :
  insert (insert_params key fields) (sensor_data w) = Raise e ->
  store_event key (JObj fields) w =
    (Raise e,
     mkWorld (put (encode key) (json_dumps (indexed fields)) (db w))
             (sensor_data w)) /\
  get (encode key) (db (snd (store_event key (JObj fields) w))) =
    Some (json_dumps (indexed fields)) /\
  sensor_data (snd (store_event key (JObj fields) w)) = sensor_data w.
Proof.
  intros Hins. rewrite store_event_dict, Hins. unfold encode. cbn [snd db sensor_data].
  now rewrite get_put_same.
Qed.

(** The primary key at work, for every engine: when a call of
    [store_event] for an id has succeeded, the next call for the same id
    writes its record to the point index and then raises at the
    [INSERT] (a constraint error, or a conversion error when its values
    do not convert), and the table keeps exactly one row for the id. *)
Theorem second_insert_rejected (w : world) (k : string)
    (e1 e2 : list (string * json)) :
  fst (store_event k (JObj e1) w) = Ok tt ->
  let w1 := snd (store_event k (JObj e1) w) in
  exists (e : exn) (i : uuid),
    store_event k (JObj e2) w1 =
      (Raise e, mkWorld (put k (json_dumps (indexed e2)) (db w1)) (sensor_data w1)) /\
    (e = ConstraintException \/ e = ConversionException) /\
    to_uuid (JStr k) = Some (Some i) /\
    List.length (rows_of i (sensor_data w1)) = 1%nat.
Proof.
  rewrite store_event_dict. unfold insert_params.
  destruct (insert _ (sensor_data w)) as [t1|] eqn:Hins; [|discriminate].
  intros _. cbn [snd].
  destruct (insert_ok _ _ _ _ _ _ _ Hins) as (i & te & hu & pr & at_ & Hid & Hnew & ->).
  assert (existsb (fun r => (sensor_id r =? i)%Z)
            (sensor_data w ++ [mkRow i te hu pr at_]) = true) as Hdup.
  { rewrite existsb_app. cbn. rewrite Z.eqb_refl. apply orb_true_r. }
  destruct (insert_duplicate (JStr k) (field "temperature" e2) (field "humidity" e2)
              (field "pressure" e2) (field "timestamp" e2) i _ Hid Hdup)
    as (e & Hraise & He).
  exists e, i. rewrite store_event_dict. unfold insert_params.
  cbn [db sensor_data]. rewrite Hraise.
  repeat split; try assumption.
  unfold rows_of. rewrite filter_app.
  fold (rows_of i (sensor_data w)). rewrite (rows_of_absent _ _ Hnew).
  cbn. now rewrite Z.eqb_refl.
Qed.

End Writes.

(** ** Sequences of calls *)

Section Sequences.

Context {conv : Conversions}.

Lemma after_calls_db (cs : list (string * list (string * json))) (w : world) :
  db (after_calls cs w) = write_all cs (db w).
Proof.
  revert w. induction cs as [|[k f] cs IH]; intros w; [reflexivity|].
  cbn [after_calls write_all fold_left].
  fold (after_calls cs (after_call w (k, f))).
  rewrite IH, after_call_db. reflexivity.
Qed.

End Sequences.

Lemma write_all_perm (cs cs' : list (string * list (string * json))) :
  Permutation cs cs' -> NoDup (map fst cs) ->
  forall d, write_all cs d = write_all cs' d.
Proof.
  induction 1 as [|c cs cs' Hp IH|c1 c2 cs|cs cs' cs'' Hp1 IH1 Hp2 IH2];
    intros Hnd d.
  - reflexivity.
  - cbn [write_all fold_left]. apply IH. now inversion Hnd.
  - cbn [write_all fold_left]. f_equal.
    apply put_comm. unfold entry_of, encode. cbn [fst].
    inversion Hnd as [|? ? Hnotin _]; subst.
    intros E. apply Hnotin. left. now symmetry.
  - rewrite IH1 by assumption. apply IH2.
    eapply Permutation_NoDup; [|exact Hnd]. now apply Permutation_map.
Qed.

Lemma put_forallb (P : string * document -> bool) (k : string) (v : document)
    (d : rocksdb) :
  P (k, v) = true -> forallb P d = true -> forallb P (put k v d) = true.
Proof.
  intros Hk.
  induction d as [|[k' v'] d IH]; cbn [put forallb]; intros Hd.
  - now rewrite Hk.
  - apply andb_true_iff in Hd as [H1 H2].
    destruct (String.compare k k'); cbn [forallb];
      rewrite ?Hk, ?H1, ?H2, ?IH; auto.
Qed.

Lemma timestamp_of_indexed (fields : list (string * json)) :
  typed_event fields = true ->
  exists s, timestamp_field fields = JStr s /\ timestamp_of (indexed fields) = Some s.
Proof.
  unfold typed_event, indexed, timestamp_of, timestamp_field. cbn.
  destruct (lookup "timestamp" fields) as [[]|]; try discriminate; eauto.
Qed.

Lemma write_all_comparable (cs : list (string * list (string * json))) (d : rocksdb) :
  forallb (fun c => typed_event (snd c)) cs = true ->
  forallb comparable d = true ->
  forallb comparable (write_all cs d) = true.
Proof.
  revert d. induction cs as [|[k f] cs IH]; intros d Hcs Hd; [exact Hd|].
  cbn [forallb snd] in Hcs. apply andb_true_iff in Hcs as [Hf Hcs].
  cbn [write_all fold_left]. apply IH; [assumption|].
  apply put_forallb; [|assumption].
  unfold comparable, entry_of, json_dumps. cbn [snd].
  destruct (timestamp_of_indexed f Hf) as (s & _ & ->). reflexivity.
Qed.

(** ** Reads *)

Section Reads.

Context {conv : Conversions}.

(** The scan loop never changes the stores, whether it returns or
    raises. *)
Lemma query_events_loop_state (it : list (string * document)) (t : string)
    (results : list json) (w : world) :
  snd (query_events_loop it t results w) = w.
Proof.
  revert results. induction it as [|[k v] it IH]; intros results; [reflexivity|].
  cbn [query_events_loop]. unfold bind, lift.
  destruct (json_loads v) as [record|]; [|reflexivity].
  destruct (py_getitem record "timestamp") as [ts|]; [|reflexivity].
  destruct (py_ge_str ts t) as [keep|]; [|reflexivity].
  apply IH.
Qed.

(** On comparable entries the loop returns, having appended the records
    at or after the threshold in scan order. *)
Lemma query_events_loop_filter (it : list (string * document)) (t : string)
    (results : list json) (w : world) :
  forallb comparable it = true ->
  query_events_loop it t results w =
    (Ok (results ++ filter (at_or_after t) (records it)), w).
Proof.
  revert results.
  induction it as [|[k v] it IH]; intros results Hit.
  - cbn. now rewrite app_nil_r.
  - cbn [forallb] in Hit. apply andb_true_iff in Hit as [Hv Hit].
    unfold comparable, timestamp_of in Hv. cbn [snd] in Hv.
    destruct v as [[| | | | | |fields]|raw]; try discriminate.
    destruct (lookup "timestamp" fields) as [[| | | |s| |]|] eqn:Hts;
      try discriminate.
    cbn [query_events_loop records filter]. unfold bind, lift.
    cbn [json_loads py_getitem]. rewrite Hts. cbn [py_ge_str].
    rewrite IH by assumption.
    unfold at_or_after at 2, timestamp_of. rewrite Hts.
    destruct (String.leb t s); [|reflexivity].
    now rewrite <- app_assoc.
Qed.

Lemma query_events_comparable (t : string) (w : world) :
  forallb comparable (db w) = true ->
  query_events t w = (Ok (filter (at_or_after t) (records (db w))), w).
Proof.
  intros H. unfold query_events, bind, db_iterator, iterator.
  now rewrite query_events_loop_filter.
Qed.

Lemma at_or_after_spec (t : string) (r : json) :
  at_or_after t r = true <->
  exists s, timestamp_of r = Some s /\ String.leb t s = true.
Proof.
  unfold at_or_after. destruct (timestamp_of r) as [s|]; split.
  - intros H. now exists s.
  - now intros (s' & [= <-] & H).
  - discriminate.
  - now intros (s' & [=] & _).
Qed.

(** C3. Whatever the store holds (records of the data model, their
    timestamps strings) and in whatever order the events were ingested,
    [query_events t] returns, without error, exactly the stored records
    whose timestamp is [>= t] as a string: all of them, only them, and
    none when none matches or the store is empty. *)
Theorem query_events_exact (w0 : world)
    (calls calls' : list (string * list (string * json))) (t : string) :
  forallb comparable (db w0) = true ->
  forallb (fun c => typed_event (snd c)) calls = true ->
  NoDup (map fst calls) ->
  Permutation calls calls' ->
  let w := after_calls calls w0 in
  exists results : list json,
    query_events t w = (Ok results, w) /\
    results = filter (at_or_after t) (records (db w)) /\
    (forall r, In r results <->
               In r (records (db w)) /\
               exists s, timestamp_of r = Some s /\ String.leb t s = true) /\
    ((forall r, In r (records (db w)) -> at_or_after t r = false) ->
     results = []) /\
    (db w = [] -> results = []) /\
    fst (query_events t (after_calls calls' w0)) = Ok results.
Proof.
  intros Hw0 Hcalls Hnd Hperm w.
  assert (forallb comparable (db w) = true) as Hw.
  { unfold w. rewrite after_calls_db. now apply write_all_comparable. }
  exists (filter (at_or_after t) (records (db w))).
  split; [now apply query_events_comparable|].
  split; [reflexivity|].
  split.
  { intros r. rewrite filter_In, at_or_after_spec. reflexivity. }
  split.
  { intros Hnone.
    induction (records (db w)) as [|r rs IH]; [reflexivity|].
    cbn [filter]. rewrite (Hnone r) by now left.
    apply IH. intros r' Hr'. apply Hnone. now right. }
  split.
  { intros ->. reflexivity. }
  assert (db (after_calls calls' w0) = db w) as Hsame.
  { unfold w. rewrite !after_calls_db. symmetry. now apply write_all_perm. }
  rewrite query_events_comparable by now rewrite Hsame.
  cbn [fst]. now rewrite Hsame.
Qed.

(** C10. [query_events] and [aggregate_metrics] are reads: after either
    call, returned or raised, the point index and the raw table are what
    they were. *)
Theorem reads_leave_the_stores (w : world) (t : string) :
  snd (query_events t w) = w /\
  snd (aggregate_metrics w) = w /\
  db (snd (query_events t w)) = db w /\
  sensor_data (snd (query_events t w)) = sensor_data w /\
  db (snd (aggregate_metrics w)) = db w /\
  sensor_data (snd (aggregate_metrics w)) = sensor_data w.
Proof.
  assert (snd (query_events t w) = w) as Hq.
  { unfold query_events, bind, db_iterator. apply query_events_loop_state. }
  rewrite Hq. repeat split; reflexivity.
Qed.

End Reads.

(** ** The sentinel timestamp *)

Lemma digit_before_unknown (t : string) :
  starts_with_digit t = true -> String.leb t "unknown" = true.
Proof.
  destruct t as [|c t]; [discriminate|].
  unfold starts_with_digit, String.leb. cbn [String.compare].
  intros H.
  assert (Ascii.compare c "u"%char = Lt) as ->; [|reflexivity].
  destruct c as [b0 b1 b2 b3 b4 b5 b6 b7].
  destruct b0, b1, b2, b3, b4, b5, b6, b7;
    vm_compute in H; try discriminate H; reflexivity.
Qed.

Lemma records_put_in (k : string) (r : json) (d : rocksdb) :
  In r (records (put k (JsonText r) d)).
Proof.
  induction d as [|[k' [r'|raw]] d IH]; cbn [put]; [now left|..];
    destruct (String.compare k k'); cbn [records In]; auto.
Qed.

Section Sentinel.

Context {conv : Conversions}.

(** C9. A record stored from an event without the [timestamp] field
    carries the timestamp ["unknown"], and [query_events t] returns it
    for every threshold [t] that starts with a digit, ["unknown"] being
    above every such string. *)
Theorem unknown_timestamp_selected (w : world) (k : string)
    (fields : list (string * json)) (t : string) :
  forallb comparable (db w) = true ->
  lookup "timestamp" fields = None ->
  starts_with_digit t = true ->
  let stored := JObj [("data", JObj fields); ("timestamp", JStr "unknown")] in
  let w' := snd (store_event k (JObj fields) w) in
  get (encode k) (db w') = Some (json_dumps stored) /\
  exists results : list json,
    query_events t w' = (Ok results, w') /\ In stored results.
Proof.
  intros Hw Hnone Hdigit stored w'.
  assert (indexed fields = stored) as Hstored.
  { unfold indexed, timestamp_field. now rewrite Hnone. }
  assert (db w' = put k (json_dumps stored) (db w)) as Hdb.
  { rewrite <- Hstored. apply (after_call_db w k fields). }
  split.
  { rewrite Hdb. unfold encode. apply get_put_same. }
  exists (filter (at_or_after t) (records (db w'))).
  split.
  - apply query_events_comparable. rewrite Hdb.
    apply put_forallb; [reflexivity | assumption].
  - apply filter_In. split.
    + rewrite Hdb. apply records_put_in.
    + unfold at_or_after. cbn. now apply digit_before_unknown.
Qed.

End Sentinel.

(** ** The snapshot feed *)

Lemma put_perm_new (k : string) (v : document) (d : rocksdb) :
  ~ In k (keys d) -> Permutation (put k v d) ((k, v) :: d).
Proof.
  unfold keys.
  induction d as [|[k' v'] d IH]; cbn [put map fst In]; intros notin.
  - reflexivity.
  - destruct (String.compare k k') eqn:E.
    + apply compare_eq in E. subst. tauto.
    + reflexivity.
    + rewrite IH by tauto. apply perm_swap.
Qed.

Lemma write_all_perm_entries (cs : list (string * list (string * json)))
    (d : rocksdb) :
  NoDup (map fst cs) ->
  (forall k, In k (map fst cs) -> ~ In k (keys d)) ->
  Permutation (write_all cs d) (d ++ map entry_of cs).
Proof.
  revert d. induction cs as [|[k f] cs IH]; intros d Hnd Hfresh.
  - cbn. now rewrite app_nil_r.
  - cbn [write_all fold_left map]. cbn [entry_of fst snd]. unfold encode.
    inversion Hnd as [|? ? Hk Hnd']; subst.
    fold (write_all cs (put k (json_dumps (indexed f)) d)).
    rewrite IH; [|assumption|].
    + rewrite put_perm_new by (apply Hfresh; now left).
      unfold entry_of at 2, encode. cbn [fst snd].
      now rewrite <- Permutation_middle.
    + intros k' Hk' Hin. apply put_keys_incl in Hin as [->|Hin].
      * now apply Hk.
      * apply (Hfresh k'); [now right | assumption].
Qed.

Lemma write_all_ordered (cs : list (string * list (string * json))) (d : rocksdb) :
  ordered d -> ordered (write_all cs d).
Proof.
  revert d. induction cs as [|c cs IH]; intros d Hd; [exact Hd|].
  cbn [write_all fold_left]. apply IH. now apply put_ordered.
Qed.

Lemma records_perm (d d' : rocksdb) :
  Permutation d d' -> Permutation (records d) (records d').
Proof.
  induction 1 as [|[k [r|raw]] d d' Hp IH|[k1 [r1|raw1]] [k2 [r2|raw2]] d|d d' d'' _ IH1 _ IH2];
    cbn [records]; try constructor; auto.
  eapply perm_trans; eassumption.
Qed.

Lemma records_entries (cs : list (string * list (string * json))) :
  records (map entry_of cs) = map (fun c => indexed (snd c)) cs.
Proof.
  induction cs as [|c cs IH]; [reflexivity|].
  cbn [map records entry_of json_dumps]. now rewrite IH.
Qed.

Lemma websocket_loop_records (it : list (string * document)) (w : world)
    (ws : websocket) :
  forallb (fun e => match snd e with JsonText _ => true | Malformed _ => false end) it
    = true ->
  websocket_loop it (w, ws) = (Ok tt, (w, ws ++ map SendJson (records it))).
Proof.
  revert ws. induction it as [|[k [r|raw]] it IH]; intros ws Hit.
  - cbn. now rewrite app_nil_r.
  - cbn [forallb snd] in Hit. cbn [websocket_loop records map].
    unfold bind, lift, ws_send_json. cbn [json_loads fst snd].
    rewrite IH by assumption. now rewrite <- app_assoc.
  - discriminate.
Qed.

Section Snapshot.

Context {conv : Conversions}.

(** C8. After [store_event] has been called for N distinct keys on an
    empty point index, a snapshot feed accepts the connection, sends
    exactly N messages, one for each stored record in the scan order of
    the store (its keys ascending), and returns, which ends the
    connection. *)
Theorem snapshot_sends_every_record (t0 : table)
    (calls : list (string * list (string * json))) (ws : websocket) :
  NoDup (map fst calls) ->
  let w := after_calls calls (mkWorld [] t0) in
  exists messages : list json,
    websocket_query (w, ws) = (Ok tt, (w, ws ++ Accept :: map SendJson messages)) /\
    List.length messages = List.length calls /\
    messages = records (iterator (db w)) /\
    ordered (db w) /\
    List.length (db w) = List.length calls /\
    Permutation messages (map (fun c => indexed (snd c)) calls).
Proof.
  intros Hnd w.
  assert (Permutation (db w) (map entry_of calls)) as Hperm.
  { unfold w. rewrite after_calls_db. cbn [db].
    apply (write_all_perm_entries calls [] Hnd). intros k _ []. }
  assert (Permutation (records (db w)) (map (fun c => indexed (snd c)) calls))
    as Hrecords.
  { rewrite <- records_entries. now apply records_perm. }
  exists (records (db w)).
  split; [|split; [|split; [|split; [|split]]]].
  - unfold websocket_query, bind, ws_accept, on_world, db_iterator, iterator.
    cbn [fst snd].
    rewrite websocket_loop_records.
    + now rewrite <- app_assoc.
    + rewrite forallb_forall. intros e He.
      apply (Permutation_in _ Hperm) in He.
      apply in_map_iff in He as (c & <- & _). reflexivity.
  - rewrite (Permutation_length Hrecords). apply length_map.
  - reflexivity.
  - unfold w. rewrite after_calls_db. apply write_all_ordered. constructor.
  - rewrite (Permutation_length Hperm). apply length_map.
  - exact Hrecords.
Qed.

End Snapshot.

(** ** The ingestion loop *)

Section Ingestion.

Context {conv : Conversions}.

Lemma consume_stream_app (before after : list consumer_record) (w : world) :
  consume_stream (before ++ after) w =
  match consume_stream before w with
  | (Ok _, w') => consume_stream after w'
  | (Raise e, w') => (Raise e, w')
  end.
Proof.
  revert w. induction before as [|r before IH]; intros w; [reflexivity|].
  cbn [app consume_stream]. unfold bind, lift.
  destruct (next_message r) as [m|e]; [|reflexivity].
  destruct (store_event (py_str (key m)) (value m) w) as [[[]|e] w1];
    [apply IH | reflexivity].
Qed.

(** C6, as the code has it. The loop has no error handling: at the first
    message that does not decode it ends with the decoder's exception.
    The messages before it have been through [store_event] (up to the
    first one that raised); no message after it is ever passed to
    [store_event], so the stores are as the messages before it left
    them. *)
Theorem consume_stream_stops_at_malformed
    (before after : list consumer_record) (k : option string) (raw : string)
    (w : world) :
  consume_stream (before ++ mkRecord k (Malformed raw) :: after) w =
    match consume_stream before w with
    | (Ok _, w') => (Raise ValueError, w')
    | (Raise e, w') => (Raise e, w')
    end /\
  (exists e, fst (consume_stream (before ++ mkRecord k (Malformed raw) :: after) w)
             = Raise e) /\
  snd (consume_stream (before ++ mkRecord k (Malformed raw) :: after) w) =
    snd (consume_stream before w).
Proof.
  rewrite consume_stream_app.
  destruct (consume_stream before w) as [[[]|e] w']; cbn; eauto.
Qed.

End Ingestion.

(** ** The grouped averages *)

Lemma timestamp_eqb_eq (a b : timestamp) : timestamp_eqb a b = true <-> a = b.
Proof.
  destruct a, b. unfold timestamp_eqb. cbn.
  rewrite !andb_true_iff, !Z.eqb_eq.
  split; [intros [[[[[[-> ->] ->] ->] ->] ->] ->]; reflexivity|].
  intros [= -> -> -> -> -> -> ->]. repeat split.
Qed.

Lemma group_eqb_eq (a b : group) : group_eqb a b = true <-> a = b.
Proof.
  destruct a as [i x], b as [j y]. unfold group_eqb, bucket_eqb. cbn.
  rewrite andb_true_iff, Z.eqb_eq.
  destruct x as [x|], y as [y|]; rewrite ?timestamp_eqb_eq;
    (split; [intros [-> H]; congruence | intros H; inversion H; now split]).
Qed.

Lemma group_eqb_refl (a : group) : group_eqb a a = true.
Proof. now apply group_eqb_eq. Qed.

Lemma distinct_in (g : group) (ks : list group) : In g (distinct ks) <-> In g ks.
Proof.
  induction ks as [|k ks IH]; [reflexivity|].
  cbn [distinct In]. rewrite filter_In, IH.
  split; [tauto|].
  intros [->|Hin]; [now left|].
  destruct (group_eqb k g) eqn:E.
  - apply group_eqb_eq in E. now left.
  - right. now split.
Qed.

Lemma distinct_nodup (ks : list group) : NoDup (distinct ks).
Proof.
  induction ks as [|k ks IH]; cbn [distinct]; constructor.
  - rewrite filter_In, group_eqb_refl. now intros [_ [=]].
  - now apply NoDup_filter.
Qed.

Lemma filter_none {A : Type} (f : A -> bool) (l : list A) :
  (forall x, In x l -> f x = false) -> filter f l = [].
Proof.
  induction l as [|x l IH]; intros H; [reflexivity|].
  cbn [filter]. rewrite (H x) by now left.
  apply IH. intros y Hy. apply H. now right.
Qed.

(** Under the primary key a group is one row. *)
Lemma members_unique (t : table) (r : row) :
  NoDup (map sensor_id t) -> In r t -> members (group_of r) t = [r].
Proof.
  unfold members.
  induction t as [|r0 t IH]; intros Hnd Hin; [destruct Hin|].
  cbn [map] in Hnd. inversion Hnd as [|? ? Hnotin Hnd']; subst.
  cbn [filter].
  destruct Hin as [->|Hin].
  - rewrite group_eqb_refl. f_equal.
    apply filter_none. intros r' Hr'.
    destruct (group_eqb (group_of r') (group_of r)) eqn:E; [|reflexivity].
    apply group_eqb_eq in E. elim Hnotin.
    replace (sensor_id r) with (sensor_id r') by (now injection E).
    now apply in_map.
  - destruct (group_eqb (group_of r0) (group_of r)) eqn:E; [|now apply IH].
    apply group_eqb_eq in E. elim Hnotin.
    replace (sensor_id r0) with (sensor_id r) by (now injection E).
    now apply in_map.
Qed.

Section PrimaryKey.

Context {conv : Conversions}.

Lemma existsb_sensor_id (i : uuid) (t : table) :
  existsb (fun r => (sensor_id r =? i)%Z) t = false -> ~ In i (map sensor_id t).
Proof.
  induction t as [|r t IH]; cbn [existsb map In]; [tauto|].
  destruct (sensor_id r =? i)%Z eqn:E; [discriminate|].
  apply Z.eqb_neq in E. intros H [H1|H2]; [contradiction | now apply IH].
Qed.

Lemma insert_primary_key (params : json * json * json * json * json)
    (t t' : table) :
  NoDup (map sensor_id t) -> insert params t = Ok t' -> NoDup (map sensor_id t').
Proof.
  destruct params as [[[[p1 p2] p3] p4] p5]. intros Hnd Hins.
  destruct (insert_ok _ _ _ _ _ _ _ Hins) as (i & te & hu & pr & at_ & _ & Hnew & ->).
  rewrite map_app. cbn [map sensor_id].
  apply NoDup_app_remove_l with (l := []).
  cbn [app]. apply Permutation_NoDup with (l := i :: map sensor_id t).
  - apply Permutation_cons_append.
  - constructor; [now apply existsb_sensor_id | assumption].
Qed.

Lemma after_call_primary_key (w : world) (c : string * list (string * json)) :
  NoDup (map sensor_id (sensor_data w)) ->
  NoDup (map sensor_id (sensor_data (after_call w c))).
Proof.
  intros Hnd. destruct c as [k f]. unfold after_call. cbn [fst snd].
  rewrite store_event_dict.
  destruct (insert _ _) as [t|e] eqn:Hins; cbn [snd sensor_data]; [|assumption].
  eapply insert_primary_key; eassumption.
Qed.

Lemma after_calls_primary_key (cs : list (string * list (string * json)))
    (w : world) :
  NoDup (map sensor_id (sensor_data w)) ->
  NoDup (map sensor_id (sensor_data (after_calls cs w))).
Proof.
  revert w. induction cs as [|c cs IH]; intros w Hnd; [exact Hnd|].
  cbn [after_calls fold_left]. apply IH. now apply after_call_primary_key.
Qed.

End PrimaryKey.

Section Aggregates.

Context {conv : Conversions}.

Lemma select_avg_in (t : table) (a : aggregate_row) :
  In a (select_avg t) <->
  exists r, In r t /\
            a = mkAggregate (sensor_id r)
                  (AVG (map temperature (members (group_of r) t)))
                  (AVG (map humidity (members (group_of r) t)))
                  (AVG (map pressure (members (group_of r) t)))
                  (option_map date_trunc_minute (recorded_at r)).
Proof.
  unfold select_avg. rewrite in_map_iff. split.
  - intros (g & <- & Hg). apply distinct_in, in_map_iff in Hg as (r & <- & Hr).
    exists r. now split.
  - intros (r & Hr & ->). exists (group_of r). split; [reflexivity|].
    apply distinct_in. now apply in_map.
Qed.

Lemma select_avg_keys (t : table) :
  map (fun a => (agg_sensor_id a, time_bucket a)) (select_avg t) =
  distinct (map group_of t).
Proof.
  unfold select_avg. rewrite map_map. cbn [agg_sensor_id time_bucket].
  rewrite <- (map_id (distinct (map group_of t))) at 2.
  apply map_ext. now intros [i b].
Qed.

(** The shape of the grouped query's result: one row for each group
    (sensor_id, recorded_at truncated to the minute) of the raw table,
    each the summary of its group's rows; and, [sensor_id] being the
    primary key, a table filled by [store_event] has one row in each
    group, as in the run of the two sample readings. *)
Theorem aggregate_metrics_groups (w : world) (d : rocksdb)
    (calls : list (string * list (string * json))) :
  (exists rows : list aggregate_row,
     aggregate_metrics w = (Ok rows, w) /\
     NoDup (map (fun a => (agg_sensor_id a, time_bucket a)) rows) /\
     (forall a, In a rows -> exists r, In r (sensor_data w) /\ summarises a r (sensor_data w)) /\
     (forall r, In r (sensor_data w) ->
                exists a, In a rows /\ summarises a r (sensor_data w))) /\
  (forall r, In r (sensor_data (after_calls calls (mkWorld d []))) ->
             members (group_of r) (sensor_data (after_calls calls (mkWorld d []))) = [r]) /\
  fst (@store_event sample_engine sensor_s (JObj reading_22) after_first) =
    Raise ConstraintException /\
  fst (aggregate_metrics after_both) =
    Ok [mkAggregate sensor_s_id (Some 20%float) None None
          (Some (mkTimestamp 2024 1 1 10 0 0 0))].
Proof.
  split; [|split; [|split]].
  - exists (select_avg (sensor_data w)).
    split; [reflexivity|]. split; [|split].
    + rewrite select_avg_keys. apply distinct_nodup.
    + intros a Ha. apply select_avg_in in Ha as (r & Hr & ->).
      exists r. split; [assumption|]. repeat split.
    + intros r Hr. eexists. split.
      * apply select_avg_in. exists r. split; [assumption | reflexivity].
      * repeat split.
  - intros r Hr. apply members_unique; [|assumption].
    apply after_calls_primary_key. constructor.
  - vm_compute. reflexivity.
  - vm_compute. reflexivity.
Qed.

End Aggregates.

(** ** One record for each key *)

Lemma key_lt_trans (a b c : string * document) :
  key_lt a b -> key_lt b c -> key_lt a c.
Proof. unfold key_lt. apply compare_lt_trans. Qed.

Lemma ordered_nodup (d : rocksdb) : ordered d -> NoDup (keys d).
Proof.
  unfold ordered, keys. intros Hs.
  apply Sorted_StronglySorted in Hs; [|exact key_lt_trans].
  induction Hs as [|a d Hs IH Hall]; cbn [map]; constructor; [|exact IH].
  intros Hin. apply in_map_iff in Hin as (b & Hb & Hin).
  rewrite Forall_forall in Hall. specialize (Hall b Hin).
  unfold key_lt in Hall. rewrite Hb, compare_refl in Hall. discriminate.
Qed.

Lemma nodup_one_entry (k : string) (d : rocksdb) :
  NoDup (keys d) ->
  (List.length (filter (fun e => String.eqb (fst e) k) d) <= 1)%nat.
Proof.
  unfold keys.
  induction d as [|[k' v'] d IH]; cbn [map fst filter]; intros Hnd; [cbn; lia|].
  inversion Hnd as [|? ? Hnotin Hnd']; subst.
  destruct (String.eqb_spec k' k) as [->|ne]; [|now apply IH].
  rewrite filter_none; [cbn; lia|].
  intros [k2 v2] Hin. cbn [fst].
  apply String.eqb_neq. intros ->. apply Hnotin.
  change k with (fst (k, v2)). now apply in_map.
Qed.

Section OneRecord.

Context {conv : Conversions}.

(** In every state reached from an empty point index by calls of
    [store_event], the entries are in strictly ascending key order and
    no key has more than one entry. *)
Theorem point_index_one_record_per_key (t0 : table)
    (calls : list (string * list (string * json))) (k : string) :
  let d := db (after_calls calls (mkWorld [] t0)) in
  ordered d /\
  NoDup (keys d) /\
  (List.length (filter (fun e => String.eqb (fst e) k) d) <= 1)%nat.
Proof.
  intros d.
  assert (ordered d) as Hord.
  { unfold d. rewrite after_calls_db. apply write_all_ordered. constructor. }
  split; [exact Hord|].
  split; [now apply ordered_nodup|].
  now apply nodup_one_entry, ordered_nodup.
Qed.

End OneRecord.

(** * The claims on concrete inputs *)

(** C1 on a run: after the two readings of [sensor_s] the lookup gives
    the second, whose [INSERT] raised. *)
Example last_write_wins_run :
  get sensor_s (db after_both) = Some (JsonText (indexed reading_22)).
Proof. vm_compute. reflexivity. Qed.

(** C2 at the failing input. Calling [store_event] twice for one id does
    not succeed twice and does not leave two raw rows: the first call
    returns and adds a row, the second writes its record to the point
    index and raises [ConstraintException] at the [INSERT], and the
    table holds one row for the id.  Through the loop it is no
    different: the same message delivered twice leaves no row at all,
    its first [INSERT] raising on the key [str(message.key)]. *)
Theorem same_id_twice_is_rejected :
  fst (@store_event sample_engine sensor_s (JObj reading_20) fresh) = Ok tt /\
  List.length (rows_of sensor_s_id (sensor_data after_first)) = 1%nat /\
  @store_event sample_engine sensor_s (JObj reading_20) after_first =
    (Raise ConstraintException, after_first) /\
  List.length
    (rows_of sensor_s_id
       (sensor_data
          (snd (@store_event sample_engine sensor_s (JObj reading_20) after_first))))
    = 1%nat /\
  @consume_stream sample_engine [record_20; record_20] fresh =
    (Raise ConversionException,
     mkWorld [(py_str (Some sensor_s), json_dumps (indexed reading_20))] []).
Proof. vm_compute. repeat split. Qed.

Lemma second_insert_rejected_witness :
  exists (e : exn) (i : uuid),
    @store_event sample_engine sensor_s (JObj reading_22) after_first =
      (Raise e,
       mkWorld (put sensor_s (json_dumps (indexed reading_22)) (db after_first))
               (sensor_data after_first)) /\
    (e = ConstraintException \/ e = ConversionException) /\
    @to_uuid sample_engine (JStr sensor_s) = Some (Some i) /\
    List.length (rows_of i (sensor_data after_first)) = 1%nat.
Proof.
  exact (@second_insert_rejected sample_engine fresh sensor_s reading_20 reading_22
           eq_refl).
Defined.

(** C4 as stated fails: an event with a [recordedAt] field and no
    [timestamp] field is stored with the timestamp ["unknown"]. *)
Lemma recordedAt_is_not_read :
  let e := [("recordedAt", JStr "2024-05-01T10:00:00")] in
  let w := snd (@store_event sample_engine sensor_s (JObj e) fresh) in
  get sensor_s (db w) =
    Some (json_dumps (JObj [("data", JObj e); ("timestamp", JStr "unknown")])) /\
  get sensor_s (db w) <> Some (json_dumps (indexed_from_recordedAt e)).
Proof.
  cbv zeta. split; [vm_compute; reflexivity|].
  vm_compute. intros [=].
Qed.

(** C5 at the failing input. On a table that holds the readings 20 and
    22 of one sensor in one minute (and 30 in the next) the grouped
    query gives the mean 21.0 for the first minute and 30.0 for the
    second, as the claim says.  The code never builds that table: after
    [store_event] for the reading 20 and then for the reading 22 of the
    sensor, the second [INSERT] has raised on the primary key and
    [aggregate_metrics] returns 20.0 for the group, no row carrying
    21.0; and through the loop the table stays empty and
    [aggregate_metrics] returns no row. *)
Theorem two_readings_are_not_averaged :
  select_avg readings_of_one_sensor =
    [mkAggregate sensor_s_id (Some 21%float) None None
       (Some (mkTimestamp 2024 1 1 10 0 0 0));
     mkAggregate sensor_s_id (Some 30%float) None None
       (Some (mkTimestamp 2024 1 1 10 1 0 0))] /\
  fst (@store_event sample_engine sensor_s (JObj reading_20) fresh) = Ok tt /\
  fst (@store_event sample_engine sensor_s (JObj reading_22) after_first) =
    Raise ConstraintException /\
  fst (aggregate_metrics after_both) =
    Ok [mkAggregate sensor_s_id (Some 20%float) None None
          (Some (mkTimestamp 2024 1 1 10 0 0 0))] /\
  existsb (fun a => match avg_temp a with
                    | Some x => PrimFloat.eqb x 21%float
                    | None => false
                    end)
          (select_avg (sensor_data after_both)) = false /\
  fst (aggregate_metrics
         (snd (@consume_stream sample_engine [record_20; record_22] fresh))) = Ok [].
Proof. vm_compute. repeat split. Qed.

(** C6 as stated fails: a malformed message followed by a valid one ends
    the loop with the stores untouched; the valid message, which is
    indexed when it comes alone, is not. *)
Lemma malformed_message_ends_ingestion :
  let bad := mkRecord (Some "k1") (Malformed "{oops") in
  let good := mkRecord (Some "k2") (JsonText (JObj reading_20)) in
  @consume_stream sample_engine [bad; good] fresh = (Raise ValueError, fresh) /\
  get (py_str (Some "k2")) (db (snd (@consume_stream sample_engine [bad; good] fresh)))
    = None /\
  get (py_str (Some "k2")) (db (snd (@consume_stream sample_engine [good] fresh)))
    = Some (json_dumps (indexed reading_20)).
Proof. vm_compute. repeat split. Qed.

Lemma insert_failure_keeps_record_witness :
  @store_event sample_engine sensor_s (JObj reading_22) after_first =
    (Raise ConstraintException,
     mkWorld (put (encode sensor_s) (json_dumps (indexed reading_22)) (db after_first))
             (sensor_data after_first)) /\
  get (encode sensor_s)
      (db (snd (@store_event sample_engine sensor_s (JObj reading_22) after_first))) =
    Some (json_dumps (indexed reading_22)) /\
  sensor_data (snd (@store_event sample_engine sensor_s (JObj reading_22) after_first)) =
    sensor_data after_first.
Proof.
  exact (@insert_failure_keeps_record sample_engine after_first sensor_s reading_22
           ConstraintException eq_refl).
Defined.

Lemma query_events_exact_witness :
  let calls := [("s2", reading_22); ("s1", reading_20)] in
  let calls' := [("s1", reading_20); ("s2", reading_22)] in
  let t := "2024-01-01 10:00:30" in
  let w := @after_calls sample_engine calls fresh in
  exists results : list json,
    query_events t w = (Ok results, w) /\
    results = filter (at_or_after t) (records (db w)) /\
    (forall r, In r results <->
               In r (records (db w)) /\
               exists s, timestamp_of r = Some s /\ String.leb t s = true) /\
    ((forall r, In r (records (db w)) -> at_or_after t r = false) ->
     results = []) /\
    (db w = [] -> results = []) /\
    fst (query_events t (@after_calls sample_engine calls' fresh)) = Ok results.
Proof.
  intros calls calls' t w.
  apply (@query_events_exact sample_engine fresh calls calls' t).
  - reflexivity.
  - reflexivity.
  - repeat constructor; cbn; intuition discriminate.
  - apply perm_swap.
Defined.

Lemma unknown_timestamp_selected_witness :
  let fields := [("temperature", JInt 20)] in
  let stored := JObj [("data", JObj fields); ("timestamp", JStr "unknown")] in
  let w' := snd (@store_event sample_engine sensor_s (JObj fields) after_first) in
  get (encode sensor_s) (db w') = Some (json_dumps stored) /\
  exists results : list json,
    query_events "2024-01-01T00:00:00" w' = (Ok results, w') /\ In stored results.
Proof.
  intros fields.
  apply (@unknown_timestamp_selected sample_engine after_first sensor_s fields
           "2024-01-01T00:00:00"); reflexivity.
Defined.

Lemma snapshot_sends_every_record_witness :
  let calls := [("s2", reading_22); ("s1", reading_20)] in
  let w := @after_calls sample_engine calls (mkWorld [] []) in
  exists messages : list json,
    websocket_query (w, []) = (Ok tt, (w, [] ++ Accept :: map SendJson messages)) /\
    List.length messages = List.length calls /\
    messages = records (iterator (db w)) /\
    ordered (db w) /\
    List.length (db w) = List.length calls /\
    Permutation messages (map (fun c => indexed (snd c)) calls).
Proof.
  intros calls.
  apply (@snapshot_sends_every_record sample_engine [] calls []).
  repeat constructor; cbn; intuition discriminate.
Defined.

(** The same run, evaluated: the two records leave in key order, the
    reverse of the order they were stored in. *)
Example snapshot_run :
  snd (snd (websocket_query
              (@after_calls sample_engine [("s2", reading_22); ("s1", reading_20)] fresh,
               []))) =
  [Accept; SendJson (indexed reading_20); SendJson (indexed reading_22)].
Proof. vm_compute. reflexivity. Qed.

(** A record whose timestamp is not a string makes the scan raise: the
    hypothesis of C3 and C9 on the stored timestamps is needed. *)
Example query_events_null_timestamp :
  fst (query_events "2024"
         (snd (@store_event sample_engine sensor_s (JObj [("timestamp", JNull)]) fresh)))
  = Raise TypeError.
Proof. vm_compute. reflexivity. Qed.

(** Under the sample engine no key the loop makes is a UUID, so the
    [INSERT] of the first message already ends [consume_stream]: the
    record is in the point index, the table is empty. *)
Example consume_stream_first_message :
  @consume_stream sample_engine
    [mkRecord (Some "k1") (JsonText (JObj reading_20));
     mkRecord (Some "k2") (JsonText (JObj reading_22))] fresh =
  (Raise ConversionException,
   mkWorld [("b'k1'", JsonText (indexed reading_20))] []).
Proof. vm_compute. reflexivity. Qed.

(** * Further properties of the code *)

(** ** Writes to the point index *)

Lemma put_put (k : string) (v1 v2 : document) (d : rocksdb) :
  put k v2 (put k v1 d) = put k v2 d.
Proof.
  induction d as [|[k' v'] d IH]; cbn [put].
  - now rewrite compare_refl.
  - destruct (String.compare k k') eqn:E; cbn [put];
      rewrite ?compare_refl, ?E, ?IH; reflexivity.
Qed.

Lemma put_entry_in (k : string) (v : document) (d : rocksdb) :
  In (k, v) (put k v d).
Proof.
  induction d as [|[k' v'] d IH]; cbn [put]; [now left|].
  destruct (String.compare k k'); cbn [In]; auto.
Qed.

Lemma put_keeps_keys (k : string) (v : document) (d : rocksdb) (x : string) :
  In x (keys d) -> In x (keys (put k v d)).
Proof.
  unfold keys.
  induction d as [|[k' v'] d IH]; cbn [put map fst In]; [tauto|].
  destruct (String.compare k k') eqn:E; cbn [map fst In].
  - apply compare_eq in E. subst k'. tauto.
  - tauto.
  - intros [->|H]; auto.
Qed.

Lemma put_key_in (k : string) (v : document) (d : rocksdb) :
  In k (keys (put k v d)).
Proof.
  unfold keys. change k with (fst (k, v)) at 1. apply in_map, put_entry_in.
Qed.

Section MoreWrites.

Context {conv : Conversions}.

(** A value that is not a dictionary (a JSON array, string, number,
    boolean or null) makes [store_event] raise [AttributeError] before
    it writes anything; in the loop, such a message ends the ingestion
    with both stores as the messages before it left them. *)
Theorem store_event_needs_dict (key : string) (value : json) (w : world) :
  is_dict value = false ->
  store_event key value w = (Raise AttributeError, w) /\
  forall (before after : list consumer_record) (k : option string),
    fst (consume_stream before w) = Ok tt ->
    consume_stream (before ++ mkRecord k (JsonText value) :: after) w =
      (Raise AttributeError, snd (consume_stream before w)).
Proof.
  intros Hnd.
  assert (forall key' w', store_event key' value w' = (Raise AttributeError, w'))
    as Hraise by (intros key' w'; destruct value; (discriminate || reflexivity)).
  split; [apply Hraise|].
  intros before after k Hok.
  rewrite consume_stream_app.
  destruct (consume_stream before w) as [[[]|e] w1]; [|discriminate].
  cbn [snd consume_stream]. unfold bind, lift. cbn -[store_event].
  now rewrite Hraise.
Qed.

(** Overwriting leaves no trace: after [store_event k e1] and then
    [store_event k e2] the point index is the one [store_event k e2]
    alone would have left, so a message delivered twice leaves the index
    as delivered once. *)
Theorem overwrite_leaves_no_trace (w : world) (k : string)
    (e1 e2 : list (string * json)) :
  db (after_call (after_call w (k, e1)) (k, e2)) = db (after_call w (k, e2)) /\
  db (after_call (after_call w (k, e2)) (k, e2)) = db (after_call w (k, e2)).
Proof.
  rewrite !after_call_db. now rewrite !put_put.
Qed.

End MoreWrites.

(** ** The time query *)

Lemma leb_compare (a b : string) :
  String.leb a b = true <-> String.compare a b <> Gt.
Proof.
  unfold String.leb. destruct (String.compare a b); split; congruence.
Qed.

Lemma leb_trans (a b c : string) :
  String.leb a b = true -> String.leb b c = true -> String.leb a c = true.
Proof.
  rewrite !leb_compare. intros Hab Hbc.
  destruct (String.compare a b) eqn:Eab; [| |congruence].
  - apply compare_eq in Eab. now subst.
  - destruct (String.compare b c) eqn:Ebc; [| |congruence].
    + apply compare_eq in Ebc. subst. congruence.
    + rewrite (compare_lt_trans _ _ _ Eab Ebc). discriminate.
Qed.

Lemma leb_empty (s : string) : String.leb "" s = true.
Proof. now destruct s. Qed.

Lemma forallb_put_false (P : string * document -> bool) (k : string)
    (v : document) (d : rocksdb) :
  P (k, v) = false -> forallb P (put k v d) = false.
Proof.
  intros Hk. destruct (forallb P (put k v d)) eqn:E; [|reflexivity].
  rewrite forallb_forall in E. rewrite (E _ (put_entry_in k v d)) in Hk.
  discriminate.
Qed.

Section MoreReads.

Context {conv : Conversions}.

(** The scan raises at the first entry it cannot compare. *)
Lemma query_events_loop_raises (it : list (string * document)) (t : string)
    (results : list json) (w : world) :
  forallb comparable it = false ->
  exists e, query_events_loop it t results w = (Raise e, w).
Proof.
  revert results. induction it as [|[k v] it IH]; intros results Hit; [discriminate|].
  cbn [forallb] in Hit. cbn [query_events_loop]. unfold bind, lift.
  unfold comparable at 1, timestamp_of in Hit. cbn [snd] in Hit.
  destruct v as [[| | | | | |fields]|raw]; cbn [json_loads py_getitem]; eauto.
  destruct (lookup "timestamp" fields) as [[| | | |s| |]|]; cbn [py_ge_str];
    eauto.
Qed.

(** [query_events] returns exactly when every stored record has a string
    timestamp; one entry that has not (a record stored from an event with
    a null or numeric timestamp, say) makes it raise for every
    threshold. *)
Theorem query_events_returns_iff (w : world) (t : string) :
  (exists results, fst (query_events t w) = Ok results) <->
  forallb comparable (db w) = true.
Proof.
  split.
  - intros (results & Hres).
    destruct (forallb comparable (db w)) eqn:E; [reflexivity|].
    unfold query_events, bind, db_iterator, iterator in Hres.
    destruct (query_events_loop_raises (db w) t [] w E) as (e & He).
    rewrite He in Hres. discriminate.
  - intros H. rewrite query_events_comparable by assumption. cbn [fst]. eauto.
Qed.

(** Storing an event whose [timestamp] field is there and is not a
    string breaks the time query: from then on [query_events] raises for
    every threshold, and returns nothing of the other records. *)
Theorem untyped_timestamp_breaks_queries (w : world) (k : string)
    (fields : list (string * json)) (t : string) :
  typed_event fields = false ->
  exists e, fst (query_events t (snd (store_event k (JObj fields) w))) = Raise e.
Proof.
  intros Hty.
  change (snd (store_event k (JObj fields) w)) with (after_call w (k, fields)).
  unfold query_events, bind, db_iterator, iterator.
  destruct (query_events_loop_raises (db (after_call w (k, fields))) t []
              (after_call w (k, fields))) as (e & He).
  - rewrite after_call_db. apply forallb_put_false.
    unfold comparable, json_dumps, indexed, timestamp_of, timestamp_field.
    unfold typed_event in Hty. cbn.
    destruct (lookup "timestamp" fields) as [[]|]; (discriminate || reflexivity).
  - exists e. now rewrite He.
Qed.

(** Raising the threshold only removes records: for [t1 <= t2] the
    result at [t2] is the result at [t1] filtered again. *)
Theorem query_events_monotone (w : world) (t1 t2 : string) :
  forallb comparable (db w) = true ->
  String.leb t1 t2 = true ->
  exists r1 r2 : list json,
    fst (query_events t1 w) = Ok r1 /\
    fst (query_events t2 w) = Ok r2 /\
    r2 = filter (at_or_after t2) r1 /\
    incl r2 r1.
Proof.
  intros Hw Hle.
  exists (filter (at_or_after t1) (records (db w))),
         (filter (at_or_after t2) (records (db w))).
  rewrite !query_events_comparable by assumption. cbn [fst].
  assert (forall r, at_or_after t2 r = true -> at_or_after t1 r = true) as Himp.
  { intros r. rewrite !at_or_after_spec. intros (s & Hs & Hts).
    exists s. split; [assumption|]. eapply leb_trans; eassumption. }
  split; [reflexivity|]. split; [reflexivity|]. split.
  - induction (records (db w)) as [|r rs IH]; [reflexivity|].
    cbn [filter].
    destruct (at_or_after t2 r) eqn:E2.
    + rewrite (Himp r E2). cbn [filter]. rewrite E2. now f_equal.
    + destruct (at_or_after t1 r); cbn [filter]; rewrite ?E2; exact IH.
  - intros r. rewrite !filter_In. intros [Hin H2]. split; auto.
Qed.

(** The empty threshold selects everything: [query_events ""] returns
    all the stored records, in scan order. *)
Theorem query_events_empty_threshold (w : world) :
  forallb comparable (db w) = true ->
  query_events "" w = (Ok (records (db w)), w).
Proof.
  intros Hw. rewrite query_events_comparable by assumption.
  f_equal. f_equal.
  assert (forallb comparable (db w) = true ->
          filter (at_or_after "") (records (db w)) = records (db w)) as H;
    [|now apply H].
  induction (db w) as [|[k [r|raw]] d IH]; cbn [forallb records]; [reflexivity|..].
  - unfold comparable at 1. cbn [snd]. intros Hd.
    apply andb_true_iff in Hd as [Hr Hd]. cbn [filter].
    unfold at_or_after at 1.
    destruct (timestamp_of r) as [s|]; [|discriminate].
    rewrite leb_empty. f_equal. now apply IH.
  - discriminate.
Qed.

(** Read your writes: right after [store_event k e] with a string
    timestamp [s], [query_events t] returns the record of [e] exactly
    when [t <= s]. *)
Theorem query_events_reads_the_write (w : world) (k : string)
    (fields : list (string * json)) (s t : string) :
  forallb comparable (db w) = true ->
  lookup "timestamp" fields = Some (JStr s) ->
  let w' := snd (store_event k (JObj fields) w) in
  exists results : list json,
    query_events t w' = (Ok results, w') /\
    (In (indexed fields) results <-> String.leb t s = true).
Proof.
  intros Hw Hts w'.
  assert (db w' = put k (json_dumps (indexed fields)) (db w)) as Hdb
    by apply (after_call_db w k fields).
  assert (timestamp_of (indexed fields) = Some s) as Hof.
  { unfold indexed, timestamp_of, timestamp_field. cbn. now rewrite Hts. }
  exists (filter (at_or_after t) (records (db w'))). split.
  - apply query_events_comparable. rewrite Hdb.
    apply put_forallb; [|assumption].
    unfold comparable, json_dumps. cbn [snd]. now rewrite Hof.
  - rewrite filter_In. unfold at_or_after. rewrite Hof. split; [tauto|].
    intros Hle. split; [|assumption]. rewrite Hdb. apply records_put_in.
Qed.

End MoreReads.

(** ** The snapshot, whatever the timestamps *)

Lemma records_length (d : rocksdb) :
  forallb is_json_text d = true -> List.length (records d) = List.length d.
Proof.
  induction d as [|[k [r|raw]] d IH]; cbn [forallb records List.length];
    [reflexivity| |discriminate].
  unfold is_json_text at 1. cbn [snd andb]. intros H. now rewrite IH.
Qed.

Lemma write_all_json_text (cs : list (string * list (string * json)))
    (d : rocksdb) :
  forallb is_json_text d = true -> forallb is_json_text (write_all cs d) = true.
Proof.
  revert d. induction cs as [|c cs IH]; intros d Hd; [exact Hd|].
  cbn [write_all fold_left]. apply IH. now apply put_forallb.
Qed.

Section MoreSnapshot.

Context {conv : Conversions}.

(** The snapshot feed does not look at timestamps: on a store of JSON
    documents, after any calls of [store_event] (keys repeated or not,
    timestamps strings or not), it returns normally, leaves both stores
    as they are, and has sent one message for each entry of the point
    index, where [query_events] may raise on the same store. *)
Theorem snapshot_ignores_timestamps (w0 : world)
    (calls : list (string * list (string * json))) (ws : websocket) :
  forallb is_json_text (db w0) = true ->
  let w := after_calls calls w0 in
  websocket_query (w, ws) =
    (Ok tt, (w, ws ++ Accept :: map SendJson (records (db w)))) /\
  List.length (records (db w)) = List.length (db w).
Proof.
  intros Hw0 w.
  assert (forallb is_json_text (db w) = true) as Hw.
  { unfold w. rewrite after_calls_db. now apply write_all_json_text. }
  split; [|now apply records_length].
  unfold websocket_query, bind, ws_accept, on_world, db_iterator, iterator.
  cbn [fst snd].
  rewrite websocket_loop_records by exact Hw.
  now rewrite <- app_assoc.
Qed.

End MoreSnapshot.

(** ** The ingestion loop and its keys *)

Section MoreIngestion.

Context {conv : Conversions}.

(** A call of [store_event] that raises ends the loop as a malformed
    message does: the exception leaves [consume_stream], there is no
    retry, and no later message is read. *)
Theorem consume_stream_stops_at_failed_write
    (before after : list consumer_record) (r : consumer_record) (m : message)
    (e : exn) (w : world) :
  fst (consume_stream before w) = Ok tt ->
  next_message r = Ok m ->
  fst (store_event (py_str (key m)) (value m) (snd (consume_stream before w)))
    = Raise e ->
  consume_stream (before ++ r :: after) w =
    (Raise e,
     snd (store_event (py_str (key m)) (value m) (snd (consume_stream before w)))).
Proof.
  intros Hbefore Hnext Hraise.
  rewrite consume_stream_app.
  destruct (consume_stream before w) as [[[]|e0] w1]; [|discriminate].
  cbn [snd] in *. cbn [consume_stream]. unfold bind, lift. rewrite Hnext.
  destruct (store_event (py_str (key m)) (value m) w1) as [[[]|e1] w2];
    [discriminate|].
  cbn [fst] in Hraise. now injection Hraise as ->.
Qed.

Lemma store_event_only_adds (k : string) (v : json) (w : world) :
  (forall x, In x (keys (db w)) -> In x (keys (db (snd (store_event k v w))))) /\
  exists added,
    sensor_data (snd (store_event k v w)) = sensor_data w ++ added /\
    (List.length added <= 1)%nat.
Proof.
  destruct (is_dict v) eqn:Hd.
  - destruct v; try discriminate. rewrite store_event_dict. unfold insert_params.
    destruct (insert _ (sensor_data w)) as [t|e] eqn:Hins; cbn [snd db sensor_data].
    + split; [intros x; apply put_keeps_keys|].
      destruct (insert_ok _ _ _ _ _ _ _ Hins) as (i & te & hu & pr & at_ & _ & _ & ->).
      eexists. split; [reflexivity|]. cbn. lia.
    + split; [intros x; apply put_keeps_keys|].
      exists []. rewrite app_nil_r. split; [reflexivity|]. cbn. lia.
  - assert (store_event k v w = (Raise AttributeError, w)) as ->
      by (destruct v; (discriminate || reflexivity)).
    cbn [snd]. split; [auto|].
    exists []. rewrite app_nil_r. split; [reflexivity|]. cbn. lia.
Qed.

(** Nothing is ever taken away: whatever the stream holds and however
    the loop ends, every key of the point index is still a key
    afterwards, and the raw table is the old one with rows added at its
    end, at most one for each message. *)
Theorem consume_stream_only_adds (consumer : list consumer_record) (w : world) :
  (forall k, In k (keys (db w)) ->
             In k (keys (db (snd (consume_stream consumer w))))) /\
  exists added,
    sensor_data (snd (consume_stream consumer w)) = sensor_data w ++ added /\
    (List.length added <= List.length consumer)%nat.
Proof.
  revert w. induction consumer as [|r rest IH]; intros w.
  - cbn. split; [auto|]. exists []. now rewrite app_nil_r.
  - cbn [consume_stream]. unfold bind, lift.
    destruct (next_message r) as [m|e].
    + destruct (store_event_only_adds (py_str (key m)) (value m) w)
        as (Hkeys & added1 & Htab & Hlen).
      destruct (store_event (py_str (key m)) (value m) w) as [[[]|e] w1];
        cbn [snd] in *.
      * destruct (IH w1) as (Hkeys' & added2 & Htab' & Hlen').
        split; [auto|].
        exists (added1 ++ added2). rewrite Htab', Htab, <- app_assoc.
        split; [reflexivity|]. rewrite length_app. cbn [List.length]. lia.
      * split; [auto|]. exists added1. split; [assumption|].
        cbn [List.length]. lia.
    + cbn [snd]. split; [auto|]. exists []. rewrite app_nil_r.
      split; [reflexivity|]. cbn. lia.
Qed.

(** With a UUID column that takes no text of the form [b'...'] or
    [None], which is all [str(message.key)] ever gives, the loop cannot
    insert a row: it raises at its first message, the raw table is
    untouched, and the messages after the first are never read. *)
Theorem repr_keys_are_never_inserted (consumer : list consumer_record)
    (w : world) :
  (forall k : option string, to_uuid (JStr (py_str k)) = None) ->
  sensor_data (snd (consume_stream consumer w)) = sensor_data w /\
  (consumer <> [] -> exists e, fst (consume_stream consumer w) = Raise e) /\
  snd (consume_stream consumer w) = snd (consume_stream (firstn 1 consumer) w).
Proof.
  intros Hrej.
  assert (forall k v w0, exists e,
             store_event (py_str k) v w0 = (Raise e, snd (store_event (py_str k) v w0))
             /\ sensor_data (snd (store_event (py_str k) v w0)) = sensor_data w0)
    as Hstore.
  { intros k v w0. destruct (is_dict v) eqn:Hd.
    - destruct v; try discriminate. rewrite store_event_dict.
      unfold insert_params, insert. rewrite Hrej. cbn [snd sensor_data]. eauto.
    - assert (store_event (py_str k) v w0 = (Raise AttributeError, w0)) as ->
        by (destruct v; (discriminate || reflexivity)).
      cbn [snd]. eauto. }
  destruct consumer as [|r rest].
  - cbn. repeat split. congruence.
  - cbn [firstn consume_stream]. unfold bind, lift.
    destruct (next_message r) as [m|e].
    + destruct (Hstore (key m) (value m) w) as (e & He & Htab).
      rewrite He. cbn [fst snd]. rewrite Htab. eauto.
    + cbn [fst snd]. eauto.
Qed.

End MoreIngestion.

(** The sample engine is such an engine. *)
Lemma sample_rejects_repr_keys (k : option string) :
  @to_uuid sample_engine (JStr (py_str k)) = None.
Proof.
  destruct k as [b|]; [|reflexivity].
  cbn [to_uuid sample_engine sample_to_uuid py_str]. unfold bytes_repr.
  destruct (contains apostrophe b && negb (contains double_quote b)); reflexivity.
Qed.

(** *** [str(message.key)] can be read back *)

Lemma unrepr_body_byte (quote c : ascii) (s : string) :
  quote = apostrophe \/ quote = double_quote ->
  unrepr_body quote (repr_byte quote c ++ s) =
  option_map (String c) (unrepr_body quote s).
Proof.
  destruct c as [b0 b1 b2 b3 b4 b5 b6 b7].
  intros [-> | ->];
    destruct b0, b1, b2, b3, b4, b5, b6, b7; reflexivity.
Qed.

Lemma unrepr_body_bytes (quote : ascii) (b : string) :
  quote = apostrophe \/ quote = double_quote ->
  unrepr_body quote (repr_bytes quote b) = Some b.
Proof.
  intros Hq. induction b as [|c b IH]; cbn [repr_bytes].
  - cbn [unrepr_body]. now rewrite Ascii.eqb_refl.
  - rewrite unrepr_body_byte by assumption. now rewrite IH.
Qed.

Lemma printable_app (a b : string) :
  printable (a ++ b) = printable a && printable b.
Proof.
  induction a as [|c a IH]; cbn [append printable]; [reflexivity|].
  rewrite IH. now rewrite andb_assoc.
Qed.

Lemma printable_repr_byte (quote c : ascii) :
  quote = apostrophe \/ quote = double_quote ->
  printable (repr_byte quote c) = true.
Proof.
  destruct c as [b0 b1 b2 b3 b4 b5 b6 b7].
  intros [-> | ->];
    destruct b0, b1, b2, b3, b4, b5, b6, b7; reflexivity.
Qed.

Lemma printable_repr_bytes (quote : ascii) (b : string) :
  quote = apostrophe \/ quote = double_quote ->
  printable (repr_bytes quote b) = true.
Proof.
  intros Hq. induction b as [|c b IH]; cbn [repr_bytes].
  - destruct Hq as [-> | ->]; reflexivity.
  - now rewrite printable_app, printable_repr_byte, IH.
Qed.

(** The key the loop passes to [store_event] determines the message's
    key: [str(message.key)] can be read back, so two messages with
    different keys (or one with a key and one without) never share an
    entry of the point index; and it is printable ASCII, whatever bytes
    the key holds. *)
Theorem message_keys_never_collide (k : option string) :
  unrepr (py_str k) = Some k /\
  (forall k', py_str k = py_str k' -> k = k') /\
  printable (py_str k) = true.
Proof.
  assert (forall k0, unrepr (py_str k0) = Some k0) as Hback.
  { intros [b|]; [|reflexivity].
    cbn [py_str]. unfold bytes_repr.
    destruct (contains apostrophe b && negb (contains double_quote b));
      cbn [append]; unfold unrepr; cbn [String.eqb Ascii.eqb Bool.eqb andb orb];
      rewrite unrepr_body_bytes by auto; reflexivity. }
  split; [apply Hback|]. split.
  - intros k' Heq. pose proof (Hback k') as H'.
    rewrite <- Heq, Hback in H'. congruence.
  - destruct k as [b|]; [|reflexivity].
    cbn [py_str]. unfold bytes_repr.
    destruct (contains apostrophe b && negb (contains double_quote b));
      cbn [append printable]; rewrite printable_repr_bytes by auto; reflexivity.
Qed.

(** ** The two stores against each other *)

Lemma rows_of_unique (t : table) (r : row) :
  NoDup (map sensor_id t) -> In r t -> rows_of (sensor_id r) t = [r].
Proof.
  unfold rows_of.
  induction t as [|r0 t IH]; intros Hnd Hin; [destruct Hin|].
  cbn [map] in Hnd. inversion Hnd as [|? ? Hnotin Hnd']; subst.
  cbn [filter].
  destruct Hin as [->|Hin].
  - rewrite Z.eqb_refl. f_equal.
    apply filter_none. intros r' Hr'. apply Z.eqb_neq. intros E.
    apply Hnotin. rewrite <- E. now apply in_map.
  - destruct (sensor_id r0 =? sensor_id r)%Z eqn:E; [|now apply IH].
    apply Z.eqb_eq in E. elim Hnotin. rewrite E. now apply in_map.
Qed.

Section Stores.

Context {conv : Conversions}.

Lemma insert_ok_values (p1 p2 p3 p4 p5 : json) (t t' : table) :
  insert (p1, p2, p3, p4, p5) t = Ok t' ->
  exists i te hu pr at_,
    to_uuid p1 = Some (Some i) /\ to_float p2 = Some te /\
    to_float p3 = Some hu /\ to_float p4 = Some pr /\
    to_timestamp p5 = Some at_ /\
    t' = t ++ [mkRow i te hu pr at_].
Proof.
  unfold insert.
  destruct (to_uuid p1) as [[i|]|], (to_float p2) as [te|], (to_float p3) as [hu|],
    (to_float p4) as [pr|], (to_timestamp p5) as [at_|]; try discriminate.
  destruct (existsb _ t); try discriminate.
  intros [= <-]. exists i, te, hu, pr, at_. repeat split.
Qed.

Lemma after_calls_only_adds (cs : list (string * list (string * json)))
    (w : world) :
  exists added, sensor_data (after_calls cs w) = sensor_data w ++ added.
Proof.
  revert w. induction cs as [|[k f] cs IH]; intros w.
  - exists []. cbn. now rewrite app_nil_r.
  - cbn [after_calls fold_left]. fold (after_calls cs (after_call w (k, f))).
    destruct (IH (after_call w (k, f))) as (added2 & ->).
    destruct (store_event_only_adds k (JObj f) w) as (_ & added1 & Htab & _).
    unfold after_call at 1. cbn [fst snd]. rewrite Htab.
    exists (added1 ++ added2). now rewrite app_assoc.
Qed.

(** The put comes before the insert, so the raw table never runs ahead
    of the point index: in every state reached from an empty table by
    calls of [store_event], each raw row is the row of a key that the
    point index holds. *)
Theorem every_row_has_its_record (d : rocksdb)
    (calls : list (string * list (string * json))) :
  let w := after_calls calls (mkWorld d []) in
  Forall (fun r => exists k, In k (keys (db w)) /\
                             to_uuid (JStr k) = Some (Some (sensor_id r)))
         (sensor_data w).
Proof.
  cbv zeta.
  assert (forall cs w,
             Forall (fun r => exists k, In k (keys (db w)) /\
                                        to_uuid (JStr k) = Some (Some (sensor_id r)))
                    (sensor_data w) ->
             Forall (fun r => exists k, In k (keys (db (after_calls cs w))) /\
                                        to_uuid (JStr k) = Some (Some (sensor_id r)))
                    (sensor_data (after_calls cs w))) as Hinv.
  { induction cs as [|[k f] cs IH]; intros w Hw; [exact Hw|].
    cbn [after_calls fold_left]. apply IH.
    unfold after_call. cbn [fst snd]. rewrite store_event_dict.
    unfold insert_params.
    destruct (insert _ (sensor_data w)) as [t|e] eqn:Hins; cbn [snd db sensor_data].
    - destruct (insert_ok _ _ _ _ _ _ _ Hins) as (i & te & hu & pr & at_ & Hid & _ & ->).
      apply Forall_app. split.
      + eapply Forall_impl; [|exact Hw].
        intros r (k0 & Hk0 & Hu). exists k0. split; [|assumption].
        now apply put_keeps_keys.
      + constructor; [|constructor].
        exists k. split; [apply put_key_in | exact Hid].
    - eapply Forall_impl; [|exact Hw].
      intros r (k0 & Hk0 & Hu). exists k0. split; [|assumption].
      now apply put_keeps_keys. }
  apply Hinv. constructor.
Qed.

(** The raw table keeps the first row of a sensor for ever: once a row
    is in the table, no later call of [store_event] changes it or adds
    another for its id, while the point index moves on to the latest
    event. *)
Theorem first_row_is_kept (d : rocksdb)
    (calls later : list (string * list (string * json))) :
  let w1 := after_calls calls (mkWorld d []) in
  let w2 := after_calls later w1 in
  Forall (fun r => rows_of (sensor_id r) (sensor_data w2) = [r]) (sensor_data w1).
Proof.
  intros w1 w2. apply Forall_forall. intros r Hr.
  apply rows_of_unique.
  - unfold w2, w1. do 2 apply after_calls_primary_key. constructor.
  - destruct (after_calls_only_adds later w1) as (added & Htab).
    unfold w2. rewrite Htab. apply in_or_app. now left.
Qed.

(** A metric the event does not carry is [NULL] in the table and in the
    averages, not zero: when the engine binds [None] to [NULL] and a
    call of [store_event] for an event without a [temperature] field
    succeeds, [aggregate_metrics] has a row for that sensor with a
    [NULL] average temperature. *)
Theorem missing_metric_gives_null_average (d : rocksdb)
    (calls : list (string * list (string * json))) (k : string)
    (fields : list (string * json)) :
  to_float JNull = Some None ->
  lookup "temperature" fields = None ->
  fst (store_event k (JObj fields) (after_calls calls (mkWorld d []))) = Ok tt ->
  exists (rows : list aggregate_row) (a : aggregate_row),
    fst (aggregate_metrics
           (snd (store_event k (JObj fields) (after_calls calls (mkWorld d [])))))
      = Ok rows /\
    In a rows /\
    to_uuid (JStr k) = Some (Some (agg_sensor_id a)) /\
    avg_temp a = None.
Proof.
  intros Hnull Hmiss.
  set (w := after_calls calls (mkWorld d [])).
  assert (NoDup (map sensor_id (sensor_data w))) as Hpk
    by (apply after_calls_primary_key; constructor).
  rewrite store_event_dict. unfold insert_params.
  destruct (insert _ (sensor_data w)) as [t|e] eqn:Hins; [|discriminate].
  intros _. cbn [snd fst].
  pose proof (insert_primary_key _ _ _ Hpk Hins) as Hpk'.
  destruct (insert_ok_values _ _ _ _ _ _ _ Hins)
    as (i & te & hu & pr & at_ & Hid & Hte & _ & _ & _ & ->).
  unfold field in Hte. rewrite Hmiss, Hnull in Hte. injection Hte as <-.
  set (r := mkRow i None hu pr at_) in *.
  assert (In r (sensor_data w ++ [r])) as Hr by (apply in_or_app; right; now left).
  exists (select_avg (sensor_data w ++ [r])).
  eexists. split; [reflexivity|]. split.
  - apply select_avg_in. exists r. split; [exact Hr | reflexivity].
  - cbn [agg_sensor_id avg_temp]. split; [exact Hid|].
    rewrite (members_unique _ r Hpk' Hr). reflexivity.
Qed.

End Stores.

(** * The further properties on concrete inputs *)

Lemma store_event_needs_dict_witness :
  @store_event sample_engine sensor_s (JArr [JInt 20]) after_first =
    (Raise AttributeError, after_first) /\
  forall (before after : list consumer_record) (k : option string),
    fst (@consume_stream sample_engine before after_first) = Ok tt ->
    @consume_stream sample_engine
      (before ++ mkRecord k (JsonText (JArr [JInt 20])) :: after) after_first =
      (Raise AttributeError, snd (@consume_stream sample_engine before after_first)).
Proof.
  exact (@store_event_needs_dict sample_engine sensor_s (JArr [JInt 20])
           after_first eq_refl).
Defined.

Lemma untyped_timestamp_breaks_queries_witness :
  exists e,
    fst (query_events "2024-01-01"
           (snd (@store_event sample_engine sensor_s
                   (JObj [("temperature", JInt 20); ("timestamp", JInt 1704103205)])
                   fresh)))
    = Raise e.
Proof.
  exact (@untyped_timestamp_breaks_queries sample_engine fresh sensor_s
           [("temperature", JInt 20); ("timestamp", JInt 1704103205)]
           "2024-01-01" eq_refl).
Defined.

Lemma query_events_monotone_witness :
  exists r1 r2 : list json,
    fst (query_events "2024-01-01 10:00:00" after_both) = Ok r1 /\
    fst (query_events "2024-01-01 10:00:41" after_both) = Ok r2 /\
    r2 = filter (at_or_after "2024-01-01 10:00:41") r1 /\
    incl r2 r1.
Proof.
  exact (query_events_monotone after_both "2024-01-01 10:00:00"
           "2024-01-01 10:00:41" eq_refl eq_refl).
Defined.

Lemma query_events_empty_threshold_witness :
  query_events "" after_both = (Ok (records (db after_both)), after_both).
Proof.
  exact (query_events_empty_threshold after_both eq_refl).
Defined.

Lemma query_events_reads_the_write_witness :
  let w' := snd (@store_event sample_engine sensor_s (JObj reading_22) after_first) in
  exists results : list json,
    query_events "2024-01-01 10:00:30" w' = (Ok results, w') /\
    (In (indexed reading_22) results <->
     String.leb "2024-01-01 10:00:30" "2024-01-01 10:00:40" = true).
Proof.
  exact (@query_events_reads_the_write sample_engine after_first sensor_s reading_22
           "2024-01-01 10:00:40" "2024-01-01 10:00:30" eq_refl eq_refl).
Defined.

Lemma snapshot_ignores_timestamps_witness :
  let calls := [("s1", [("timestamp", JNull)]); ("s1", reading_20);
                ("s2", [("timestamp", JInt 7)])] in
  let w := @after_calls sample_engine calls fresh in
  websocket_query (w, []) =
    (Ok tt, (w, [] ++ Accept :: map SendJson (records (db w)))) /\
  List.length (records (db w)) = List.length (db w).
Proof.
  intros calls.
  exact (@snapshot_ignores_timestamps sample_engine fresh calls [] eq_refl).
Defined.

Lemma consume_stream_stops_at_failed_write_witness :
  let r := mkRecord (Some "k1") (JsonText (JObj reading_20)) in
  let later := [mkRecord (Some "k2") (JsonText (JObj reading_22))] in
  @consume_stream sample_engine ([] ++ r :: later) fresh =
    (Raise ConversionException,
     snd (@store_event sample_engine (py_str (Some "k1")) (JObj reading_20)
            (snd (@consume_stream sample_engine [] fresh)))).
Proof.
  intros r later.
  exact (@consume_stream_stops_at_failed_write sample_engine [] later r
           (mkMessage (Some "k1") (JObj reading_20)) ConversionException fresh
           eq_refl eq_refl eq_refl).
Defined.

Lemma repr_keys_are_never_inserted_witness :
  let consumer := [mkRecord (Some sensor_s) (JsonText (JObj reading_20));
                   mkRecord None (JsonText (JObj reading_22))] in
  sensor_data (snd (@consume_stream sample_engine consumer fresh)) = sensor_data fresh /\
  (consumer <> [] ->
   exists e, fst (@consume_stream sample_engine consumer fresh) = Raise e) /\
  snd (@consume_stream sample_engine consumer fresh) =
    snd (@consume_stream sample_engine (firstn 1 consumer) fresh).
Proof.
  intros consumer.
  exact (@repr_keys_are_never_inserted sample_engine consumer fresh
           sample_rejects_repr_keys).
Defined.

Lemma missing_metric_gives_null_average_witness :
  exists (rows : list aggregate_row) (a : aggregate_row),
    fst (aggregate_metrics
           (snd (@store_event sample_engine sensor_s
                   (JObj [("humidity", JInt 40)])
                   (@after_calls sample_engine [] (mkWorld [] [])))))
      = Ok rows /\
    In a rows /\
    @to_uuid sample_engine (JStr sensor_s) = Some (Some (agg_sensor_id a)) /\
    avg_temp a = None.
Proof.
  exact (@missing_metric_gives_null_average sample_engine [] [] sensor_s
           [("humidity", JInt 40)] eq_refl eq_refl eq_refl).
Defined.
